(** * SerialProvider: the [useWebSerial] hook

    A shallow embedding of [src/app/components/SerialProvider/SerialProvider.tsx]
    and the properties of its connection life cycle, its read loop, its
    writes and its control signals.

    - JavaScript strings are lists of UTF-16 code units ([list N]).
    - A [Uint8Array] is a [list byte].
    - Port objects live in a store indexed by object identity; [portRef]
      and the arguments of [openPort] hold identities, so that two
      references to one port see the same [readable] and the same
      [cancelRequested].
    - The transport (the platform's Web Serial objects) is outside the
      file: its answers are arguments of the operations, and every call
      made to it is appended to a log.
    - An asynchronous function runs from its call to its settlement in
      one piece; the read loop is taken read by read, and the start-up
      of the hook await by await. *)

From Stdlib Require Import NArith Lia String List.
From Stdlib.Strings Require Import Byte.
From stdpp Require Import base numbers list strings gmap.

Open Scope N_scope.

(** ** Texts and bytes *)

(** A literal of the source, as code units. *)
Definition js (s : string) : list N :=
  map Byte.to_N (String.list_byte_of_string s).

(** [String.prototype.endsWith]. *)
Definition endsWith (s pat : list N) : bool :=
  bool_decide (pat `suffix_of` s).

(** ** [TextDecoder]: the UTF-8 decoder of the Encoding standard *)

Module Utf8.

Record decoder : Type := Decoder {
  code_point : N;
  bytes_seen : N;
  bytes_needed : N;
  lower_boundary : N;
  upper_boundary : N
}.

Definition initial : decoder := Decoder 0 0 0 0x80 0xBF.

Definition replacement : N := 0xFFFD.
Definition byte_order_mark : N := 0xFEFF.

Definition between (lo b hi : N) : bool := (lo <=? b) && (b <=? hi).

(** A byte read while no sequence is open. *)
Definition lead (b : N) : decoder * list N :=
  if b <=? 0x7F then (initial, [b])
  else if between 0xC2 b 0xDF then
    (Decoder (N.land b 0x1F) 0 1 0x80 0xBF, [])
  else if between 0xE0 b 0xEF then
    (Decoder (N.land b 0xF) 0 2
       (if b =? 0xE0 then 0xA0 else 0x80)
       (if b =? 0xED then 0x9F else 0xBF), [])
  else if between 0xF0 b 0xF4 then
    (Decoder (N.land b 0x7) 0 3
       (if b =? 0xF0 then 0x90 else 0x80)
       (if b =? 0xF4 then 0x8F else 0xBF), [])
  else (initial, [replacement]).

(** One byte through the handler, errors in replacement mode.  A byte that
    cannot continue the open sequence closes it with U+FFFD and is read
    again as a first byte. *)
Definition handler (d : decoder) (b : N) : decoder * list N :=
  if bytes_needed d =? 0 then lead b
  else if negb (between (lower_boundary d) b (upper_boundary d)) then
    let '(d', out) := lead b in (d', replacement :: out)
  else
    let cp := N.lor (N.shiftl (code_point d) 6) (N.land b 0x3F) in
    let seen := bytes_seen d + 1 in
    if seen =? bytes_needed d then (initial, [cp])
    else (Decoder cp seen (bytes_needed d) 0x80 0xBF, []).

Fixpoint run (d : decoder) (bs : list byte) : decoder * list N :=
  match bs with
  | [] => (d, [])
  | b :: bs' =>
      let '(d1, out1) := handler d (Byte.to_N b) in
      let '(d2, out2) := run d1 bs' in
      (d2, out1 ++ out2)
  end.

(** End of queue: an open sequence is replaced. *)
Definition flush (d : decoder) : list N :=
  if bytes_needed d =? 0 then [] else [replacement].

(** The first code point of a call is dropped when it is U+FEFF
    ([ignoreBOM] is false). *)
Definition strip_bom (cps : list N) : list N :=
  match cps with
  | c :: cps' => if c =? byte_order_mark then cps' else cps
  | [] => []
  end.

(** A code point as UTF-16 code units. *)
Definition utf16 (cp : N) : list N :=
  if cp <? 0x10000 then [cp]
  else [0xD800 + N.shiftr (cp - 0x10000) 10;
        0xDC00 + N.land (cp - 0x10000) 0x3FF].

(** The code points of one call [decode(bytes)] without [{stream: true}]:
    the decoder starts afresh and is flushed at the end of the call. *)
Definition raw_code_points (bs : list byte) : list N :=
  let '(d, out) := run initial bs in out ++ flush d.

Definition code_points (bs : list byte) : list N :=
  strip_bom (raw_code_points bs).

(** [new TextDecoder().decode(value)]; [value] is [undefined] when the
    stream reports its end. *)
Definition decode (value : option (list byte)) : list N :=
  match value with
  | Some bs => flat_map utf16 (code_points bs)
  | None => []
  end.

(** A chunk ends on a character boundary when the decoder has no
    sequence open after its last byte. *)
Definition ends_on_boundary (bs : list byte) : bool :=
  bytes_needed (fst (run initial bs)) =? 0.

(** A chunk begins with a byte order mark. *)
Definition begins_with_bom (bs : list byte) : bool :=
  match raw_code_points bs with
  | c :: _ => c =? byte_order_mark
  | [] => false
  end.

(** [TextEncoder]: lone surrogates become U+FFFD, pairs are joined. *)
Definition is_lead_surrogate (u : N) : bool := between 0xD800 u 0xDBFF.
Definition is_trail_surrogate (u : N) : bool := between 0xDC00 u 0xDFFF.

Fixpoint scalar_values (s : list N) : list N :=
  match s with
  | [] => []
  | u :: s' =>
      if is_lead_surrogate u then
        match s' with
        | v :: s'' =>
            if is_trail_surrogate v
            then (0x10000 + N.shiftl (u - 0xD800) 10 + (v - 0xDC00))
                   :: scalar_values s''
            else replacement :: scalar_values s'
        | [] => [replacement]
        end
      else if is_trail_surrogate u then replacement :: scalar_values s'
      else u :: scalar_values s'
  end.

Definition to_byte (n : N) : byte := default x00 (Byte.of_N (n mod 256)).

Definition encode_code_point (cp : N) : list byte :=
  if cp <=? 0x7F then [to_byte cp]
  else if cp <=? 0x7FF then
    [to_byte (N.lor 0xC0 (N.shiftr cp 6));
     to_byte (N.lor 0x80 (N.land cp 0x3F))]
  else if cp <=? 0xFFFF then
    [to_byte (N.lor 0xE0 (N.shiftr cp 12));
     to_byte (N.lor 0x80 (N.land (N.shiftr cp 6) 0x3F));
     to_byte (N.lor 0x80 (N.land cp 0x3F))]
  else
    [to_byte (N.lor 0xF0 (N.shiftr cp 18));
     to_byte (N.lor 0x80 (N.land (N.shiftr cp 12) 0x3F));
     to_byte (N.lor 0x80 (N.land (N.shiftr cp 6) 0x3F));
     to_byte (N.lor 0x80 (N.land cp 0x3F))].

(** [new TextEncoder().encode(s)]. *)
Definition encode (s : list N) : list byte :=
  flat_map encode_code_point (scalar_values s).

End Utf8.

(** ** The read loop of [startReading] *)

(** The prompt of the device's shell, which ends every answer. *)
Definition terminator : list N := js "ch> ".

(** What [reader.read()] resolves to. *)
Record ReadResult : Type := {
  done : bool;
  value : option (list byte)
}.

Definition chunk_read (bs : list byte) : ReadResult :=
  {| done := false; value := Some bs |}.

(** The callback given to [reader.read().then]: the new [completeString]
    and the argument of the [onData] call, if there is one. *)
Definition on_read (completeString : list N) (r : ReadResult)
  : option (list N) * list N :=
  let completeString := completeString ++ Utf8.decode (value r) in
  if done r || endsWith completeString terminator
  then (Some completeString, [])
  else (None, completeString).

(** The [onData] calls of the loop over the reads it is given, in order. *)
Fixpoint read_loop (completeString : list N) (reads : list ReadResult)
  : list (list N) :=
  match reads with
  | [] => []
  | r :: reads' =>
      match on_read completeString r with
      | (Some msg, completeString') => msg :: read_loop completeString' reads'
      | (None, completeString') => read_loop completeString' reads'
      end
  end.

(** ** Port objects and the platform *)

Inductive PortState : Type := closed | closing | open | opening.

#[global] Instance PortState_eq_dec : EqDecision PortState.
Proof. solve_decision. Defined.

Inductive ParityType : Type := parity_none | parity_even | parity_odd.
Inductive FlowControlType : Type := flow_none | flow_hardware.

(** The argument of [port.open]. *)
Record SerialOptions : Type := {
  baudRate : N;
  bufferSize : N;
  dataBits : N;
  flowControl : FlowControlType;
  parity : ParityType;
  stopBits : N
}.

(** The argument of [port.setSignals]: every member of the dictionary is
    optional. *)
Record SerialOutputSignals : Type := {
  sig_break : option bool;
  sig_dataTerminalReady : option bool;
  sig_requestToSend : option bool
}.

(** The result of [port.getSignals]. *)
Record InputSignals : Type := {
  clearToSend : bool;
  dataCarrierDetect : bool;
  dataSetReady : bool;
  ringIndicator : bool
}.

(** The three [useState] cells of the output signals. *)
Record OutputSignals : Type := {
  breakSignal : bool;
  dataTerminalReady : bool;
  requestToSend : bool
}.

(** The result of [port.getInfo]. *)
Record SerialPortInfo : Type := {
  usbVendorId : option N;
  usbProductId : option N
}.

(** A readable or writable stream: only its lock is observed. *)
Record Stream : Type := { locked : bool }.

(** A [WebSerialPort] object.  [readable] and [writable] are [null] while
    the port is not open. *)
Record Port : Type := {
  readable : option Stream;
  writable : option Stream;
  cancelRequested : bool;
  info : SerialPortInfo
}.

Definition closed_port (i : SerialPortInfo) : Port :=
  {| readable := None; writable := None; cancelRequested := false;
     info := i |}.

#[global] Instance Port_inhabited : Inhabited Port :=
  populate (closed_port {| usbVendorId := None; usbProductId := None |}).

Definition set_readable (v : option Stream) (p : Port) : Port :=
  {| readable := v; writable := writable p;
     cancelRequested := cancelRequested p; info := info p |}.

Definition set_writable (v : option Stream) (p : Port) : Port :=
  {| readable := readable p; writable := v;
     cancelRequested := cancelRequested p; info := info p |}.

Definition set_cancelRequested (v : bool) (p : Port) : Port :=
  {| readable := readable p; writable := writable p;
     cancelRequested := v; info := info p |}.

(** The calls made to the platform, as they are logged. *)
Inductive Call : Type :=
| call_requestPort
| call_getPorts
| call_open (port : nat) (o : SerialOptions)
| call_close (port : nat)
| call_getSignals (port : nat)
| call_setSignals (port : nat) (s : SerialOutputSignals)
| call_write (port : nat) (data : list byte).

(** How a promise of the platform settles. *)
Inductive Answer : Type := Resolved | Rejected (reason : string).

(** The module-level [webSerialContext]. *)
Record WebSerialContext : Type := {
  initialized : bool;
  context_ports : list nat
}.

(** ** The state of one mounted hook and of the platform around it *)

Record World : Type := {
  (* useRef and useState cells of the hook *)
  portState : PortState;
  portRef : option nat;
  ports : list nat;
  isOpen : bool;
  isReading : bool;
  hasTriedAutoconnect : bool;
  canUseSerial : bool;
  options : SerialOptions;
  outputs : OutputSignals;
  inputs : InputSignals;
  (* module state *)
  webSerialContext : WebSerialContext;
  (* the platform: the port objects, and what getPorts() answers *)
  heap : gmap nat Port;
  granted : list nat;
  (* the local [completeString] of each running read loop, by port *)
  loops : gmap nat (list N);
  (* what was observed: calls to the platform, calls of [onData] *)
  calls : list Call;
  onData : list (list N)
}.

Definition set_portState (v : PortState) (w : World) : World :=
  {| portState := v; portRef := portRef w; ports := ports w;
     isOpen := isOpen w; isReading := isReading w;
     hasTriedAutoconnect := hasTriedAutoconnect w;
     canUseSerial := canUseSerial w; options := options w;
     outputs := outputs w; inputs := inputs w;
     webSerialContext := webSerialContext w; heap := heap w;
     granted := granted w; loops := loops w; calls := calls w;
     onData := onData w |}.

Definition set_portRef (v : option nat) (w : World) : World :=
  {| portState := portState w; portRef := v; ports := ports w;
     isOpen := isOpen w; isReading := isReading w;
     hasTriedAutoconnect := hasTriedAutoconnect w;
     canUseSerial := canUseSerial w; options := options w;
     outputs := outputs w; inputs := inputs w;
     webSerialContext := webSerialContext w; heap := heap w;
     granted := granted w; loops := loops w; calls := calls w;
     onData := onData w |}.

Definition set_ports (v : list nat) (w : World) : World :=
  {| portState := portState w; portRef := portRef w; ports := v;
     isOpen := isOpen w; isReading := isReading w;
     hasTriedAutoconnect := hasTriedAutoconnect w;
     canUseSerial := canUseSerial w; options := options w;
     outputs := outputs w; inputs := inputs w;
     webSerialContext := webSerialContext w; heap := heap w;
     granted := granted w; loops := loops w; calls := calls w;
     onData := onData w |}.

Definition set_isOpen (v : bool) (w : World) : World :=
  {| portState := portState w; portRef := portRef w; ports := ports w;
     isOpen := v; isReading := isReading w;
     hasTriedAutoconnect := hasTriedAutoconnect w;
     canUseSerial := canUseSerial w; options := options w;
     outputs := outputs w; inputs := inputs w;
     webSerialContext := webSerialContext w; heap := heap w;
     granted := granted w; loops := loops w; calls := calls w;
     onData := onData w |}.

Definition set_isReading (v : bool) (w : World) : World :=
  {| portState := portState w; portRef := portRef w; ports := ports w;
     isOpen := isOpen w; isReading := v;
     hasTriedAutoconnect := hasTriedAutoconnect w;
     canUseSerial := canUseSerial w; options := options w;
     outputs := outputs w; inputs := inputs w;
     webSerialContext := webSerialContext w; heap := heap w;
     granted := granted w; loops := loops w; calls := calls w;
     onData := onData w |}.

Definition set_hasTriedAutoconnect (v : bool) (w : World) : World :=
  {| portState := portState w; portRef := portRef w; ports := ports w;
     isOpen := isOpen w; isReading := isReading w; hasTriedAutoconnect := v;
     canUseSerial := canUseSerial w; options := options w;
     outputs := outputs w; inputs := inputs w;
     webSerialContext := webSerialContext w; heap := heap w;
     granted := granted w; loops := loops w; calls := calls w;
     onData := onData w |}.

Definition set_options (v : SerialOptions) (w : World) : World :=
  {| portState := portState w; portRef := portRef w; ports := ports w;
     isOpen := isOpen w; isReading := isReading w;
     hasTriedAutoconnect := hasTriedAutoconnect w;
     canUseSerial := canUseSerial w; options := v; outputs := outputs w;
     inputs := inputs w; webSerialContext := webSerialContext w;
     heap := heap w; granted := granted w; loops := loops w;
     calls := calls w; onData := onData w |}.

Definition set_outputs (v : OutputSignals) (w : World) : World :=
  {| portState := portState w; portRef := portRef w; ports := ports w;
     isOpen := isOpen w; isReading := isReading w;
     hasTriedAutoconnect := hasTriedAutoconnect w;
     canUseSerial := canUseSerial w; options := options w; outputs := v;
     inputs := inputs w; webSerialContext := webSerialContext w;
     heap := heap w; granted := granted w; loops := loops w;
     calls := calls w; onData := onData w |}.

Definition set_inputs (v : InputSignals) (w : World) : World :=
  {| portState := portState w; portRef := portRef w; ports := ports w;
     isOpen := isOpen w; isReading := isReading w;
     hasTriedAutoconnect := hasTriedAutoconnect w;
     canUseSerial := canUseSerial w; options := options w;
     outputs := outputs w; inputs := v;
     webSerialContext := webSerialContext w; heap := heap w;
     granted := granted w; loops := loops w; calls := calls w;
     onData := onData w |}.

Definition set_webSerialContext (v : WebSerialContext) (w : World) : World :=
  {| portState := portState w; portRef := portRef w; ports := ports w;
     isOpen := isOpen w; isReading := isReading w;
     hasTriedAutoconnect := hasTriedAutoconnect w;
     canUseSerial := canUseSerial w; options := options w;
     outputs := outputs w; inputs := inputs w; webSerialContext := v;
     heap := heap w; granted := granted w; loops := loops w;
     calls := calls w; onData := onData w |}.

Definition set_heap (v : gmap nat Port) (w : World) : World :=
  {| portState := portState w; portRef := portRef w; ports := ports w;
     isOpen := isOpen w; isReading := isReading w;
     hasTriedAutoconnect := hasTriedAutoconnect w;
     canUseSerial := canUseSerial w; options := options w;
     outputs := outputs w; inputs := inputs w;
     webSerialContext := webSerialContext w; heap := v; granted := granted w;
     loops := loops w; calls := calls w; onData := onData w |}.

Definition set_granted (v : list nat) (w : World) : World :=
  {| portState := portState w; portRef := portRef w; ports := ports w;
     isOpen := isOpen w; isReading := isReading w;
     hasTriedAutoconnect := hasTriedAutoconnect w;
     canUseSerial := canUseSerial w; options := options w;
     outputs := outputs w; inputs := inputs w;
     webSerialContext := webSerialContext w; heap := heap w; granted := v;
     loops := loops w; calls := calls w; onData := onData w |}.

Definition set_loops (v : gmap nat (list N)) (w : World) : World :=
  {| portState := portState w; portRef := portRef w; ports := ports w;
     isOpen := isOpen w; isReading := isReading w;
     hasTriedAutoconnect := hasTriedAutoconnect w;
     canUseSerial := canUseSerial w; options := options w;
     outputs := outputs w; inputs := inputs w;
     webSerialContext := webSerialContext w; heap := heap w;
     granted := granted w; loops := v; calls := calls w;
     onData := onData w |}.

Definition set_calls (v : list Call) (w : World) : World :=
  {| portState := portState w; portRef := portRef w; ports := ports w;
     isOpen := isOpen w; isReading := isReading w;
     hasTriedAutoconnect := hasTriedAutoconnect w;
     canUseSerial := canUseSerial w; options := options w;
     outputs := outputs w; inputs := inputs w;
     webSerialContext := webSerialContext w; heap := heap w;
     granted := granted w; loops := loops w; calls := v;
     onData := onData w |}.

Definition set_onData (v : list (list N)) (w : World) : World :=
  {| portState := portState w; portRef := portRef w; ports := ports w;
     isOpen := isOpen w; isReading := isReading w;
     hasTriedAutoconnect := hasTriedAutoconnect w;
     canUseSerial := canUseSerial w; options := options w;
     outputs := outputs w; inputs := inputs w;
     webSerialContext := webSerialContext w; heap := heap w;
     granted := granted w; loops := loops w; calls := calls w;
     onData := v |}.

(** The port object behind a reference. *)
Definition port_at (w : World) (p : nat) : Port := heap w !!! p.

Definition update_port (p : nat) (f : Port -> Port) (w : World) : World :=
  set_heap (<[p := f (port_at w p)]> (heap w)) w.

Definition log_call (c : Call) (w : World) : World :=
  set_calls (calls w ++ [c]) w.

(** The hook as it is first rendered. *)
Definition default_options : SerialOptions :=
  {| baudRate := 115200; bufferSize := 255; dataBits := 8;
     flowControl := flow_none; parity := parity_none; stopBits := 1 |}.

Definition inputs_off : InputSignals :=
  {| clearToSend := false; dataCarrierDetect := false;
     dataSetReady := false; ringIndicator := false |}.

Definition outputs_off : OutputSignals :=
  {| breakSignal := false; dataTerminalReady := false;
     requestToSend := false |}.

Definition mount (h : gmap nat Port) (g : list nat) : World :=
  {| portState := closed; portRef := None; ports := [];
     isOpen := false; isReading := false; hasTriedAutoconnect := false;
     canUseSerial := true; options := default_options;
     outputs := outputs_off; inputs := inputs_off;
     webSerialContext := {| initialized := false; context_ports := [] |};
     heap := h; granted := g; loops := ∅; calls := []; onData := [] |}.

(** ** Asynchronous functions

    An [async] function of the hook is run from its call to the settlement
    of its promise: it returns or throws, and the cells it wrote before
    throwing stay written.  The answers of the platform are arguments. *)

Inductive Outcome (A : Type) : Type :=
| Returned (a : A)
| Thrown (e : string).
Arguments Returned {A} a.
Arguments Thrown {A} e.

Definition M (A : Type) : Type := World -> Outcome A * World.

#[global] Instance M_ret : MRet M := fun A a w => (Returned a, w).

#[global] Instance M_bind : MBind M := fun A B f m w =>
  match m w with
  | (Returned a, w') => f a w'
  | (Thrown e, w') => (Thrown e, w')
  end.

Definition throw {A : Type} (e : string) : M A := fun w => (Thrown e, w).
Definition get : M World := fun w => (Returned w, w).
Definition modify (f : World -> World) : M unit := fun w => (Returned tt, f w).

(** A promise that nobody awaits: what it wrote stays, how it settled is
    not seen. *)
Definition detached {A : Type} (m : M A) : M unit :=
  fun w => (Returned tt, snd (m w)).

Definition exec {A : Type} (m : M A) (w : World) : World := snd (m w).
Definition outcome {A : Type} (m : M A) (w : World) : Outcome A := fst (m w).

(** The messages of the [Error]s the hook throws. *)
Definition NoPortSelected : string := "useWebSerial: No port selected".
Definition AlreadyOpen : string := "useWebSerial: Port already opened".
Definition NotOpen : string := "useWebSerial: Port not opened".
Definition PortLocked : string :=
  "useWebSerial: Port is locked (stopReading first)".
Definition ReadNoPort : string := "no port selected".
Definition ReadNotOpen : string := "port not opened".
(** [getReader] and [getWriter] of a locked stream throw a [TypeError]. *)
Definition StreamLocked : string := "TypeError: stream is locked".

(** What the platform does to a port whose [open] or [close] resolves. *)
Definition unlocked : Stream := {| locked := false |}.

Definition platform_opened (p : nat) : World -> World :=
  update_port p (fun port =>
    set_writable (Some unlocked) (set_readable (Some unlocked) port)).

Definition platform_closed (p : nat) : World -> World :=
  update_port p (fun port => set_writable None (set_readable None port)).

(** [openPort], lines 188-214. *)
Definition openPort (newPort : option nat) (answer : Answer) : M unit :=
  match newPort with
  | None => throw NoPortSelected
  | Some p =>
      w ← get;
      match readable (port_at w p) with
      | Some _ => throw AlreadyOpen
      | None =>
          modify (log_call (call_open p (options w)));;
          match answer with
          | Resolved =>
              modify (platform_opened p);;
              modify (set_portRef (Some p));;
              modify (set_portState open);;
              modify (set_isOpen true)
          | Rejected _ =>
              modify (set_portState closed);;
              modify (set_isOpen false)
          end
      end
  end.

(** [manualConnectToPort], lines 131-146.  [choice] is the port the user
    picks in the chooser, if any.  [openPort] is called and not awaited. *)
Definition manualConnectToPort (choice : option nat) (answer : Answer)
  : M bool :=
  w ← get;
  if canUseSerial w && bool_decide (portState w = closed) then
    modify (set_portState opening);;
    modify (log_call call_requestPort);;
    match choice with
    | Some port => detached (openPort (Some port) answer);; mret true
    | None => modify (set_portState closed);; mret false
    end
  else mret false.

(** [autoConnectToPort], lines 148-166. *)
Definition autoConnectToPort (answer : Answer) : M bool :=
  w ← get;
  if canUseSerial w && bool_decide (portState w = closed) then
    modify (set_portState opening);;
    modify (log_call call_getPorts);;
    match granted w with
    | port :: _ => openPort (Some port) answer;; mret true
    | [] =>
        modify (set_portState closed);;
        modify (set_hasTriedAutoconnect true);;
        mret false
    end
  else mret false.

(** [closePort], lines 216-233. *)
Definition closePort (answer : Answer) : M unit :=
  w ← get;
  match portRef w with
  | None => throw NoPortSelected
  | Some p =>
      match readable (port_at w p) with
      | None => throw NotOpen
      | Some r =>
          if locked r then throw PortLocked
          else
            modify (log_call (call_close p));;
            match answer with
            | Resolved =>
                modify (platform_closed p);;
                modify (set_isOpen false)
            | Rejected e => throw e
            end
      end
  end.

(** [stopReading], lines 269-281. *)
Definition stopReading : M unit :=
  w ← get;
  match portRef w with
  | None => throw ReadNoPort
  | Some p =>
      match readable (port_at w p) with
      | None => throw ReadNotOpen
      | Some _ =>
          modify (set_isReading false);;
          modify (update_port p (set_cancelRequested true))
      end
  end.

(** [startReading], lines 235-252, up to its first [await]: the lock is
    taken and the loop waits for its first read. *)
Definition startReading : M unit :=
  w ← get;
  match portRef w with
  | None => throw ReadNoPort
  | Some p =>
      match readable (port_at w p) with
      | None => throw ReadNotOpen
      | Some r =>
          modify (set_isReading true);;
          modify (update_port p (set_cancelRequested false));;
          if locked r then throw StreamLocked
          else
            modify (update_port p (set_readable (Some {| locked := true |})));;
            modify (fun w => set_loops (<[p := []]> (loops w)) w)
      end
  end.

(** [reader.releaseLock()] in the [finally] of the loop, and the loop's
    end. *)
Definition releaseLock (p : nat) : World -> World :=
  update_port p (fun port =>
    match readable port with
    | Some _ => set_readable (Some unlocked) port
    | None => port
    end).

Definition loop_exit (p : nat) (w : World) : World :=
  set_loops (delete p (loops w)) (releaseLock p w).

(** One turn of the [do ... while], lines 254-263: the read of the loop
    on port [p] resolves with [r]; the callback runs, then the flag is
    tested. *)
Definition read_resolved (p : nat) (r : ReadResult) (w : World) : World :=
  match loops w !! p with
  | None => w
  | Some completeString =>
      let '(msg, completeString') := on_read completeString r in
      let w1 :=
        match msg with
        | Some m => set_onData (onData w ++ [m]) w
        | None => w
        end in
      if cancelRequested (port_at w1 p) then loop_exit p w1
      else set_loops (<[p := completeString']> (loops w1)) w1
  end.

(** The read rejects: the exception leaves through the [finally]. *)
Definition read_rejected (p : nat) (w : World) : World :=
  match loops w !! p with
  | None => w
  | Some _ => loop_exit p w
  end.

(** [write], lines 287-299. *)
Definition write (message : list N) (answer : Answer) : M unit :=
  w ← get;
  let data := Utf8.encode (message ++ [13; 10]) in
  match portRef w with
  | None => mret tt
  | Some p =>
      match writable (port_at w p) with
      | None => mret tt
      | Some s =>
          if locked s then throw StreamLocked
          else
            modify (update_port p (set_writable (Some {| locked := true |})));;
            modify (log_call (call_write p data));;
            modify (update_port p (set_writable (Some unlocked)));;
            match answer with
            | Resolved => mret tt
            | Rejected e => throw e
            end
      end
  end.

(** ** [portInfo], lines 172-186 *)

(** [Number.prototype.toString(16)]. *)
Definition hex_digit (d : N) : N := if d <? 10 then 48 + d else 87 + d.

Fixpoint hex_digits (fuel : nat) (n : N) : list N :=
  match fuel with
  | O => []
  | S fuel' =>
      if n <? 16 then [hex_digit n]
      else hex_digits fuel' (n / 16) ++ [hex_digit (n mod 16)]
  end.

Definition toString16 (n : N) : list N :=
  hex_digits (S (N.to_nat (N.log2 n))) n.

(** [String.prototype.padStart] with a filler of one code unit. *)
Definition padStart (width : nat) (filler : N) (s : list N) : list N :=
  replicate (width - length s) filler ++ s.

(** A number or [undefined] in a condition. *)
Definition truthy (n : option N) : bool :=
  match n with
  | Some v => negb (v =? 0)
  | None => false
  end.

Record PortIdentity : Type := {
  id_usbVendorId : N;
  id_usbProductId : N;
  usbId : list N
}.

Definition portInfo (i : SerialPortInfo) : option PortIdentity :=
  if truthy (usbVendorId i) && truthy (usbProductId i) then
    match usbVendorId i, usbProductId i with
    | Some v, Some p =>
        Some {| id_usbVendorId := v; id_usbProductId := p;
                usbId := padStart 4 48 (toString16 v) ++ js ":"
                           ++ padStart 4 48 (toString16 p) |}
    | _, _ => None
    end
  else None.

(** ** Effects and setters *)

(** The start-up effect, lines 310-324. *)
Definition init_effect (w : World) : World :=
  if initialized (webSerialContext w) then w
  else
    let w1 := set_webSerialContext
                {| initialized := true;
                   context_ports := context_ports (webSerialContext w) |} w in
    let w2 := log_call call_getPorts w1 in
    match granted w2 with
    | first :: _ =>
        set_portRef (Some first)
          (set_ports (granted w2)
             (set_webSerialContext
                {| initialized := true; context_ports := granted w2 |} w2))
    | [] => w2
    end.

(** The effect on the output signals, lines 335-344. *)
Definition signals_effect (w : World) : World :=
  match portRef w with
  | Some p =>
      match readable (port_at w p) with
      | Some _ =>
          log_call
            (call_setSignals p
               {| sig_break := Some (breakSignal (outputs w));
                  sig_dataTerminalReady := Some (dataTerminalReady (outputs w));
                  sig_requestToSend := Some (requestToSend (outputs w)) |}) w
      | None => w
      end
  | None => w
  end.

(** A [useState] setter of an output signal: a new value renders again
    and the effect runs; the same value does nothing. *)
Definition set_output (o : OutputSignals) (w : World) : World :=
  signals_effect (set_outputs o w).

Definition setBreak (v : bool) (w : World) : World :=
  if Bool.eqb v (breakSignal (outputs w)) then w
  else set_output
         {| breakSignal := v;
            dataTerminalReady := dataTerminalReady (outputs w);
            requestToSend := requestToSend (outputs w) |} w.

Definition setDataTerminalReady (v : bool) (w : World) : World :=
  if Bool.eqb v (dataTerminalReady (outputs w)) then w
  else set_output
         {| breakSignal := breakSignal (outputs w);
            dataTerminalReady := v;
            requestToSend := requestToSend (outputs w) |} w.

Definition setRequestToSend (v : bool) (w : World) : World :=
  if Bool.eqb v (requestToSend (outputs w)) then w
  else set_output
         {| breakSignal := breakSignal (outputs w);
            dataTerminalReady := dataTerminalReady (outputs w);
            requestToSend := v |} w.

(** The guard of the auto-connect effect, lines 347-357, and the effect. *)
Definition autoconnect_guard (w : World) : bool :=
  canUseSerial w && negb (hasTriedAutoconnect w)
    && bool_decide (portState w = closed).

Definition autoconnect_effect (answer : Answer) (w : World) : World :=
  if autoconnect_guard w then exec (autoConnectToPort answer) w else w.

(** One tick of the interval, lines 93-111; [signals] is what
    [getSignals] resolves to. *)
Definition changed (new old : bool) : bool :=
  if Bool.eqb new old then old else new.

Definition poll (signals : InputSignals) (w : World) : World :=
  match portRef w with
  | Some p =>
      match readable (port_at w p) with
      | Some _ =>
          set_inputs
            {| clearToSend :=
                 changed (clearToSend signals) (clearToSend (inputs w));
               dataCarrierDetect :=
                 changed (dataCarrierDetect signals)
                   (dataCarrierDetect (inputs w));
               dataSetReady :=
                 changed (dataSetReady signals) (dataSetReady (inputs w));
               ringIndicator :=
                 changed (ringIndicator signals) (ringIndicator (inputs w)) |}
            (log_call (call_getSignals p) w)
      | None => w
      end
  | None => w
  end.

(** ** The life of a session: everything that can happen to it *)

Inductive Action : Type :=
| do_init_effect
| do_autoconnect_effect (answer : Answer)
| do_manualConnectToPort (choice : option nat) (answer : Answer)
| do_openPort (newPort : option nat) (answer : Answer)
| do_closePort (answer : Answer)
| do_startReading
| do_stopReading
| do_read_resolved (port : nat) (r : ReadResult)
| do_read_rejected (port : nat)
| do_write (message : list N) (answer : Answer)
| do_setBreak (v : bool)
| do_setDataTerminalReady (v : bool)
| do_setRequestToSend (v : bool)
| do_setOptions (o : SerialOptions)
| do_poll (signals : InputSignals)
| platform_loses (port : nat)
| platform_grants (g : list nat).

Definition step (w : World) (a : Action) : World :=
  match a with
  | do_init_effect => init_effect w
  | do_autoconnect_effect answer => autoconnect_effect answer w
  | do_manualConnectToPort choice answer =>
      exec (manualConnectToPort choice answer) w
  | do_openPort newPort answer => exec (openPort newPort answer) w
  | do_closePort answer => exec (closePort answer) w
  | do_startReading => exec startReading w
  | do_stopReading => exec stopReading w
  | do_read_resolved p r => read_resolved p r w
  | do_read_rejected p => read_rejected p w
  | do_write message answer => exec (write message answer) w
  | do_setBreak v => setBreak v w
  | do_setDataTerminalReady v => setDataTerminalReady v w
  | do_setRequestToSend v => setRequestToSend v w
  | do_setOptions o => set_options o w
  | do_poll signals => poll signals w
  | platform_loses p => platform_closed p w
  | platform_grants g => set_granted g w
  end.

Definition run (w : World) (l : list Action) : World := foldl step w l.

(** The steps after which a port may have lost its streams: a close by
    the hook, a loss reported by the platform. *)
Definition closes (a : Action) : bool :=
  match a with
  | do_closePort _ | platform_loses _ => true
  | _ => false
  end.

(** ** The messages the read loop is expected to produce *)

(** The occurrences of the terminator in a text, each named by the
    position at which it ends. *)
Definition occurrences (text : list N) : list nat :=
  filter (fun e => terminator `suffix_of` take e text)
    (seq 1 (length text)).

(** A text cut at the given positions: each piece runs from the previous
    position to the next. *)
Fixpoint cut (start : nat) (ends : list nat) (text : list N)
  : list (list N) :=
  match ends with
  | [] => []
  | e :: ends' =>
      take (e - start) text :: cut e ends' (drop (e - start) text)
  end.

(** The expected messages: the i-th is the text from the end of the
    previous occurrence of the terminator to the end of the i-th. *)
Definition expected_messages (text : list N) : list (list N) :=
  cut 0 (occurrences text) text.

(** The text of the chunks as the loop decodes them, one call of
    [decode] per chunk. *)
Definition decoded (chunks : list (list byte)) : list (list N) :=
  map (fun c => Utf8.decode (Some c)) chunks.

Definition accumulated (chunks : list (list byte)) : list N :=
  concat (decoded chunks).

(** The positions at which the parts of a text end. *)
Definition ends_of (parts : list (list N)) : list nat :=
  (fun j => length (concat (take j parts))) <$> seq 1 (length parts).

(** The same messages found by one pass over the text: a message ends
    as soon as what was read since the previous one ends with the
    terminator. *)
Fixpoint messages_from (acc text : list N) : list (list N) :=
  match text with
  | [] => []
  | c :: text' =>
      if endsWith (acc ++ [c]) terminator
      then (acc ++ [c]) :: messages_from [] text'
      else messages_from (acc ++ [c]) text'
  end.

Definition messages (text : list N) : list (list N) := messages_from [] text.

(** Every message ends where a chunk ends: the first [i] messages are
    the text of the first [j] chunks, for some [j]. *)
Definition on_chunk_boundaries (msgs texts : list (list N)) : Prop :=
  ∀ i, (i ≤ length msgs)%nat ->
       ∃ j, concat (take i msgs) = concat (take j texts).

(** ** A session used in the examples

    One port, already granted to the page, found at start-up and opened
    by the auto-connect effect. *)

Definition the_port : Port :=
  closed_port {| usbVendorId := Some 0x1d50; usbProductId := Some 0x6018 |}.

Definition mounted : World := mount {[ 0%nat := the_port ]} [0%nat].

Definition opened : World :=
  run mounted [do_init_effect; do_autoconnect_effect Resolved].

Definition reading : World := run opened [do_startReading].

(** ** The invariant the data model asks of the handle

    A port is held exactly while the connection state is one of
    "opening", "open" and "closing". *)

Definition handle_iff_connected (w : World) : Prop :=
  is_Some (portRef w) ↔ portState w ∈ [opening; open; closing].

(** ** Further notions *)

(** The local [completeString] of the loop after the reads it is given. *)
Fixpoint read_buffer (completeString : list N) (reads : list ReadResult)
  : list N :=
  match reads with
  | [] => completeString
  | r :: reads' => read_buffer (snd (on_read completeString r)) reads'
  end.

(** The read that reports the end of the stream. *)
Definition end_read : ReadResult := {| done := true; value := None |}.

(** A JavaScript string without lone surrogates: every lead surrogate is
    followed by a trail surrogate, and every unit is a 16-bit number. *)
Fixpoint well_formed (s : list N) : bool :=
  match s with
  | [] => true
  | u :: s' =>
      if Utf8.is_lead_surrogate u then
        match s' with
        | v :: s'' => Utf8.is_trail_surrogate v && well_formed s''
        | [] => false
        end
      else negb (Utf8.is_trail_surrogate u) && (u <? 0x10000)
             && well_formed s'
  end.

(** ** The start-up of the hook, await by await

    When the hook is mounted its effects run in the order of the source.
    The start-up effect (lines 310-324) marks the module as initialized
    and calls [getPorts]; the auto-connect effect (lines 347-357) then
    calls [autoConnectToPort], which writes "opening" and calls
    [getPorts] in its turn (lines 150-154).  Only then do the two
    promises settle, in the order in which they were made: the callback
    of the start-up effect (lines 317-323) runs first, the rest of
    [autoConnectToPort] (lines 155-165) after it. *)

(** Lines 311-317, up to the call of [getPorts]. *)
Definition init_effect_call (w : World) : World :=
  if initialized (webSerialContext w) then w
  else
    log_call call_getPorts
      (set_webSerialContext
         {| initialized := true;
            context_ports := context_ports (webSerialContext w) |} w).

(** The callback given to [then], lines 317-323. *)
Definition init_effect_then (w : World) : World :=
  match granted w with
  | first :: _ =>
      set_portRef (Some first)
        (set_ports (granted w)
           (set_webSerialContext
              {| initialized := initialized (webSerialContext w);
                 context_ports := granted w |} w))
  | [] => w
  end.

(** [autoConnectToPort] up to its [await], lines 150-154, once the guard
    of line 150 has let it in. *)
Definition autoConnect_call (w : World) : World :=
  log_call call_getPorts (set_portState opening w).

(** [autoConnectToPort] after its [await], lines 155-165. *)
Definition autoConnect_rest (answer : Answer) : M bool :=
  w ← get;
  match granted w with
  | port :: _ => openPort (Some port) answer;; mret true
  | [] =>
      modify (set_portState closed);;
      modify (set_hasTriedAutoconnect true);;
      mret false
  end.

(** The worlds the hook goes through at start-up, one for each await;
    [answer] is how the platform settles [open]. *)
Definition starting (h : gmap nat Port) (g : list nat) : World :=
  autoConnect_call (init_effect_call (mount h g)).

Definition found (h : gmap nat Port) (g : list nat) : World :=
  init_effect_then (starting h g).

Definition started (h : gmap nat Port) (g : list nat) (answer : Answer)
  : World :=
  exec (autoConnect_rest answer) (found h g).

(** ** The options an [openPort] carries

    The six option values that [openPort] hands to [open] (lines
    198-205) are constants of the render that made the function (lines
    79-84).  [openPort_captured o] is the [openPort] of a render whose
    options were [o], whatever the cells hold when it is called;
    [openPort] above is the one of the latest render. *)
Definition openPort_captured (captured : SerialOptions)
    (newPort : option nat) (answer : Answer) : M unit :=
  match newPort with
  | None => throw NoPortSelected
  | Some p =>
      w ← get;
      match readable (port_at w p) with
      | Some _ => throw AlreadyOpen
      | None =>
          modify (log_call (call_open p captured));;
          match answer with
          | Resolved =>
              modify (platform_opened p);;
              modify (set_portRef (Some p));;
              modify (set_portState open);;
              modify (set_isOpen true)
          | Rejected _ =>
              modify (set_portState closed);;
              modify (set_isOpen false)
          end
      end
  end.

(** * Properties *)

(** ** Reading the store *)

Lemma port_at_update_port_eq (p : nat) (f : Port -> Port) (w : World) :
  port_at (update_port p f w) p = f (port_at w p).
Proof. unfold port_at, update_port; simpl. apply lookup_total_insert_eq. Qed.

Lemma port_at_update_port_ne (p q : nat) (f : Port -> Port) (w : World) :
  p ≠ q -> port_at (update_port p f w) q = port_at w q.
Proof.
  intros Hne. unfold port_at, update_port; simpl.
  by apply lookup_total_insert_ne.
Qed.

Lemma port_at_platform_opened (p : nat) (w : World) :
  readable (port_at (platform_opened p w) p) = Some unlocked.
Proof. unfold platform_opened. by rewrite port_at_update_port_eq. Qed.

(** Unfolds the monad of the asynchronous functions. *)
Ltac run_async :=
  unfold exec, outcome, detached, mbind, M_bind, mret, M_ret, get, modify,
    throw in *; simpl in *.

(** ** What no step of a session undoes *)

Ltac unfold_step :=
  unfold step, init_effect, autoconnect_effect, autoconnect_guard,
    manualConnectToPort, autoConnectToPort, openPort, closePort,
    startReading, stopReading, read_resolved, read_rejected, loop_exit,
    write, setBreak, setDataTerminalReady, setRequestToSend, set_output,
    signals_effect, poll in *;
  run_async.

Ltac by_cases_of_step :=
  unfold_step; repeat case_match; simplify_eq/=; try done.

Lemma step_canUseSerial (w : World) (a : Action) :
  canUseSerial (step w a) = canUseSerial w.
Proof. destruct a; by_cases_of_step. Qed.

Lemma step_hasTriedAutoconnect (w : World) (a : Action) :
  hasTriedAutoconnect w = true -> hasTriedAutoconnect (step w a) = true.
Proof. intros H; destruct a; by_cases_of_step. Qed.

Lemma step_portRef (w : World) (a : Action) :
  is_Some (portRef w) -> is_Some (portRef (step w a)).
Proof. intros H; destruct a; by_cases_of_step; eauto. Qed.

Lemma step_open_holds (w : World) (a : Action) :
  (portState w = open -> is_Some (portRef w)) ->
  portState (step w a) = open -> is_Some (portRef (step w a)).
Proof.
  intros H; destruct a; by_cases_of_step; eauto;
    intros Ho; destruct (H Ho) as [q Hq]; congruence.
Qed.

Lemma run_snoc (w : World) (l : list Action) (a : Action) :
  run w (l ++ [a]) = step (run w l) a.
Proof. unfold run. by rewrite foldl_app. Qed.

Lemma run_app (w : World) (l l' : list Action) :
  run w (l ++ l') = run (run w l) l'.
Proof. unfold run. by rewrite foldl_app. Qed.

Lemma run_canUseSerial (w : World) (l : list Action) :
  canUseSerial (run w l) = canUseSerial w.
Proof.
  induction l as [|a l IH] using rev_ind; [done|].
  by rewrite run_snoc, step_canUseSerial.
Qed.

Lemma run_hasTriedAutoconnect (w : World) (l : list Action) :
  hasTriedAutoconnect w = true -> hasTriedAutoconnect (run w l) = true.
Proof.
  intros H. induction l as [|a l IH] using rev_ind; [done|].
  rewrite run_snoc. by apply step_hasTriedAutoconnect.
Qed.

Lemma run_portRef (w : World) (l : list Action) :
  is_Some (portRef w) -> is_Some (portRef (run w l)).
Proof.
  intros H. induction l as [|a l IH] using rev_ind; [done|].
  rewrite run_snoc. by apply step_portRef.
Qed.

Lemma run_open_holds (w : World) (l : list Action) :
  (portState w = open -> is_Some (portRef w)) ->
  portState (run w l) = open -> is_Some (portRef (run w l)).
Proof.
  intros H. induction l as [|a l IH] using rev_ind; [done|].
  rewrite run_snoc. by apply step_open_holds.
Qed.

(** A port keeps its readable stream through every step that is not a
    close. *)
Lemma step_keeps_readable (w : World) (a : Action) (p : nat) :
  closes a = false ->
  is_Some (readable (port_at w p)) ->
  is_Some (readable (port_at (step w a) p)).
Proof.
  intros Hc Hr. destruct a; try discriminate Hc; by_cases_of_step;
    repeat (unfold port_at, update_port, platform_opened, releaseLock,
              log_call in *;
            simpl in *;
            rewrite lookup_total_insert; case_decide; simplify_eq/=);
    repeat case_match; simplify_eq/=; eauto.
Qed.

Lemma run_keeps_readable (w : World) (l : list Action) (p : nat) :
  Forall (fun a => closes a = false) l ->
  is_Some (readable (port_at w p)) ->
  is_Some (readable (port_at (run w l) p)).
Proof.
  intros Hl Hr. induction l as [|a l IH] using rev_ind; [done|].
  apply Forall_app in Hl as [Hl Ha]. rewrite Forall_singleton in Ha.
  rewrite run_snoc. apply step_keeps_readable; [exact Ha | by apply IH].
Qed.

(** ** [portInfo] *)

Example portInfo_display_id :
  usbId <$> portInfo {| usbVendorId := Some 0x10; usbProductId := Some 0x1 |}
  = Some (js "0010:0001").
Proof. reflexivity. Qed.

Lemma portInfo_absent (i : SerialPortInfo) :
  usbVendorId i = None ∨ usbProductId i = None -> portInfo i = None.
Proof.
  unfold portInfo. intros [H | H]; rewrite H; simpl; [done|].
  by rewrite andb_false_r.
Qed.

(** The digits of [toString16] do not depend on the fuel: more of it
    gives the same digits. *)
Lemma hex_digits_fuel (fuel extra : nat) (n : N) :
  n < 16 ^ N.of_nat (S fuel) ->
  hex_digits (S fuel + extra) n = hex_digits (S fuel) n.
Proof.
  revert n. induction fuel as [|fuel IH]; intros n Hn.
  - change (16 ^ N.of_nat 1) with 16 in Hn. simpl.
    destruct (N.ltb_spec n 16); [done | lia].
  - change (hex_digits (S (S fuel) + extra) n)
      with (if n <? 16 then [hex_digit n]
            else hex_digits (S fuel + extra) (n / 16)
                   ++ [hex_digit (n mod 16)]).
    change (hex_digits (S (S fuel)) n)
      with (if n <? 16 then [hex_digit n]
            else hex_digits (S fuel) (n / 16) ++ [hex_digit (n mod 16)]).
    destruct (n <? 16); [done|]. rewrite IH; [done|].
    apply N.Div0.div_lt_upper_bound.
    rewrite <- N.pow_succ_r'. by rewrite <- Nat2N.inj_succ.
Qed.

Lemma toString16_fuel (extra : nat) (n : N) :
  hex_digits (S (N.to_nat (N.log2 n)) + extra) n = toString16 n.
Proof.
  unfold toString16. apply hex_digits_fuel.
  rewrite Nat2N.inj_succ, N2Nat.id.
  destruct (N.eq_dec n 0) as [-> | Hn]; [done|].
  apply N.lt_le_trans with (2 ^ N.succ (N.log2 n)).
  - apply N.log2_spec. lia.
  - apply N.pow_le_mono_l. lia.
Qed.

(** C10: a port whose USB descriptor has vendor id 0 or product id 0 gets
    no identity: [portInfo] returns [null], as it does for a port without
    a descriptor. *)
Theorem portInfo_zero_id (i : SerialPortInfo) :
  usbVendorId i = Some 0 ∨ usbProductId i = Some 0 -> portInfo i = None.
Proof.
  unfold portInfo. intros [H | H]; rewrite H; simpl; [done|].
  by rewrite andb_false_r.
Qed.

Lemma portInfo_zero_id_witness :
  let i := {| usbVendorId := Some 0; usbProductId := Some 0x6018 |} in
  (usbVendorId i = Some 0 ∨ usbProductId i = Some 0) ∧ portInfo i = None.
Proof.
  split; [left; reflexivity|].
  apply portInfo_zero_id. left; reflexivity.
Defined.

(** ** [write] *)

(** C8: with no handle ([portRef.current] is [null], or the port it
    holds has no writable stream) [write] returns without throwing, for
    every message, and leaves everything as it was: nothing is asked of
    the platform. *)
Theorem write_without_handle (message : list N) (answer : Answer) (w : World) :
  (portRef w = None ∨
   ∃ p, portRef w = Some p ∧ writable (port_at w p) = None) ->
  write message answer w = (Returned tt, w).
Proof.
  intros [H | (p & Hp & Hw)]; unfold write; run_async.
  - by rewrite H.
  - by rewrite Hp, Hw.
Qed.

Lemma write_without_handle_witness :
  let w := mount ∅ [] in
  (portRef w = None ∨
   ∃ p, portRef w = Some p ∧ writable (port_at w p) = None) ∧
  write (js "ping") Resolved w = (Returned tt, w).
Proof.
  split; [left; reflexivity|].
  apply write_without_handle. left; reflexivity.
Defined.

(** With a handle the bytes of the message and of CR LF reach the port. *)
Lemma write_with_handle (message : list N) (w : World) (p : nat) :
  portRef w = Some p -> writable (port_at w p) = Some unlocked ->
  calls (exec (write message Resolved) w)
  = calls w ++ [call_write p (Utf8.encode (message ++ [13; 10]))].
Proof.
  intros Hp Hw. unfold write; run_async. by rewrite Hp, Hw.
Qed.

(** ** Output signals *)

(** C7: while the hook holds a port with a readable stream, changing one
    of the three output signals makes one [setSignals] call that carries
    all three members: the new value of the one changed and the current
    values of the other two. *)
Theorem output_change_sends_all_three (w : World) (p : nat) (s : Stream)
    (v : bool) :
  portRef w = Some p -> readable (port_at w p) = Some s ->
  (v ≠ breakSignal (outputs w) ->
   calls (setBreak v w)
   = calls w ++ [call_setSignals p
       {| sig_break := Some v;
          sig_dataTerminalReady := Some (dataTerminalReady (outputs w));
          sig_requestToSend := Some (requestToSend (outputs w)) |}]) ∧
  (v ≠ dataTerminalReady (outputs w) ->
   calls (setDataTerminalReady v w)
   = calls w ++ [call_setSignals p
       {| sig_break := Some (breakSignal (outputs w));
          sig_dataTerminalReady := Some v;
          sig_requestToSend := Some (requestToSend (outputs w)) |}]) ∧
  (v ≠ requestToSend (outputs w) ->
   calls (setRequestToSend v w)
   = calls w ++ [call_setSignals p
       {| sig_break := Some (breakSignal (outputs w));
          sig_dataTerminalReady := Some (dataTerminalReady (outputs w));
          sig_requestToSend := Some v |}]).
Proof.
  intros Hp Hr.
  assert (Hne : ∀ a b : bool, a ≠ b -> Bool.eqb a b = false)
    by (intros [] []; simpl; congruence).
  repeat split; intros Hv;
    unfold setBreak, setDataTerminalReady, setRequestToSend, set_output,
      signals_effect;
    rewrite (Hne _ _ Hv); simpl; rewrite Hp;
    change (port_at (set_outputs _ w) p) with (port_at w p);
    by rewrite Hr.
Qed.

Lemma output_change_sends_all_three_witness :
  portRef opened = Some 0%nat ∧
  readable (port_at opened 0) = Some unlocked ∧
  calls (setRequestToSend true opened)
  = calls opened ++ [call_setSignals 0
      {| sig_break := Some false;
         sig_dataTerminalReady := Some false;
         sig_requestToSend := Some true |}].
Proof.
  split; [reflexivity|]. split; [reflexivity|].
  refine (proj2 (proj2
    (output_change_sends_all_three opened 0 unlocked true _ _)) _);
    [reflexivity | reflexivity | discriminate].
Defined.

(** Setting a signal to the value it has makes no call. *)
Lemma output_same_value_is_silent (w : World) :
  setBreak (breakSignal (outputs w)) w = w ∧
  setDataTerminalReady (dataTerminalReady (outputs w)) w = w ∧
  setRequestToSend (requestToSend (outputs w)) w = w.
Proof.
  unfold setBreak, setDataTerminalReady, setRequestToSend.
  by rewrite !Bool.eqb_reflx.
Qed.

(** ** [openPort] *)

Lemma openPort_resolved (w : World) (p : nat) :
  readable (port_at w p) = None ->
  openPort (Some p) Resolved w
  = (Returned tt,
     set_isOpen true (set_portState open (set_portRef (Some p)
       (platform_opened p (log_call (call_open p (options w)) w))))).
Proof. intros Hr. unfold openPort; run_async. by rewrite Hr. Qed.

Lemma openPort_rejected (w : World) (p : nat) (e : string) :
  readable (port_at w p) = None ->
  openPort (Some p) (Rejected e) w
  = (Returned tt,
     set_isOpen false (set_portState closed
       (log_call (call_open p (options w)) w))).
Proof. intros Hr. unfold openPort; run_async. by rewrite Hr. Qed.

(** C6: [openPort] on a port that has a readable stream throws "Port
    already opened" and changes nothing, so the platform's [open] is not
    called; and that is the state a first, successful [openPort] leaves
    the port in, and every later step that is not a close keeps it in,
    so calling [openPort] again on it fails this way. *)
Theorem openPort_twice (w : World) (p : nat) (answer : Answer)
    (between : list Action) :
  (is_Some (readable (port_at w p)) ->
   openPort (Some p) answer w = (Thrown AlreadyOpen, w)) ∧
  (readable (port_at w p) = None ->
   Forall (fun a => closes a = false) between ->
   let w1 := exec (openPort (Some p) Resolved) w in
   let w2 := run w1 between in
   calls w1 = calls w ++ [call_open p (options w)] ∧
   openPort (Some p) answer w2 = (Thrown AlreadyOpen, w2)).
Proof.
  assert (Hfail : ∀ w', is_Some (readable (port_at w' p)) ->
            openPort (Some p) answer w' = (Thrown AlreadyOpen, w')).
  { intros w' [s Hs]. unfold openPort; run_async. by rewrite Hs. }
  split; [apply Hfail|].
  intros Hr Hb w1 w2. subst w2 w1. unfold exec.
  rewrite (openPort_resolved _ _ Hr); simpl.
  split; [reflexivity|].
  apply Hfail, run_keeps_readable; [exact Hb|].
  exists unlocked. apply port_at_platform_opened.
Qed.

Lemma openPort_twice_witness :
  readable (port_at mounted 0) = None ∧
  Forall (fun a => closes a = false) [do_startReading; do_stopReading] ∧
  let w1 := exec (openPort (Some 0%nat) Resolved) mounted in
  let w2 := run w1 [do_startReading; do_stopReading] in
  calls w1 = [call_open 0 default_options] ∧
  openPort (Some 0%nat) Resolved w2 = (Thrown AlreadyOpen, w2).
Proof.
  assert (Hb : Forall (fun a => closes a = false)
                 [do_startReading; do_stopReading])
    by (repeat constructor).
  split; [reflexivity|]. split; [exact Hb|].
  exact (proj2 (openPort_twice mounted 0 Resolved
                  [do_startReading; do_stopReading]) eq_refl Hb).
Defined.

(** ** [closePort] *)

Lemma closePort_locked (w : World) (p : nat) (s : Stream) (answer : Answer) :
  portRef w = Some p -> readable (port_at w p) = Some s -> locked s = true ->
  closePort answer w = (Thrown PortLocked, w).
Proof.
  intros Hp Hr Hl. unfold closePort; run_async. by rewrite Hp, Hr, Hl.
Qed.

Lemma closePort_unlocked (w : World) (p : nat) (s : Stream) :
  portRef w = Some p -> readable (port_at w p) = Some s -> locked s = false ->
  closePort Resolved w
  = (Returned tt,
     set_isOpen false (platform_closed p (log_call (call_close p) w))).
Proof.
  intros Hp Hr Hl. unfold closePort; run_async. by rewrite Hp, Hr, Hl.
Qed.

Lemma closePort_keeps_portState (w : World) (answer : Answer) :
  portState (exec (closePort answer) w) = portState w.
Proof.
  unfold closePort; run_async.
  repeat case_match; reflexivity.
Qed.

(** C3, as the code has it: when [closePort] goes through on an open
    session, the platform's [close] has been called and [isOpen] is
    false, but [portState.current] still reads "open": nothing in
    [closePort] writes it. *)
Theorem closePort_leaves_state_open (w : World) (p : nat) (s : Stream) :
  portState w = open -> portRef w = Some p ->
  readable (port_at w p) = Some s -> locked s = false ->
  let w' := exec (closePort Resolved) w in
  outcome (closePort Resolved) w = Returned tt ∧
  calls w' = calls w ++ [call_close p] ∧
  readable (port_at w' p) = None ∧
  isOpen w' = false ∧
  portState w' = open.
Proof.
  intros Hs Hp Hr Hl. unfold exec, outcome.
  rewrite (closePort_unlocked _ _ _ Hp Hr Hl); simpl.
  repeat split; try done.
  unfold platform_closed.
  change (port_at (set_isOpen false ?x) p) with (port_at x p).
  by rewrite port_at_update_port_eq.
Qed.

Lemma closePort_leaves_state_open_witness :
  portState opened = open ∧ portRef opened = Some 0%nat ∧
  readable (port_at opened 0) = Some unlocked ∧
  let w' := exec (closePort Resolved) opened in
  outcome (closePort Resolved) opened = Returned tt ∧
  calls w' = calls opened ++ [call_close 0] ∧
  readable (port_at w' 0) = None ∧
  isOpen w' = false ∧
  portState w' = open.
Proof.
  split; [reflexivity|]. split; [reflexivity|]. split; [reflexivity|].
  exact (closePort_leaves_state_open opened 0 unlocked
           eq_refl eq_refl eq_refl eq_refl).
Defined.

(** After such a close the hook cannot connect again: both connect
    functions want "closed". *)
Lemma no_reconnect_after_close (choice : option nat) (answer : Answer) :
  let w' := exec (closePort Resolved) opened in
  manualConnectToPort choice answer w' = (Returned false, w') ∧
  autoConnectToPort answer w' = (Returned false, w').
Proof. split; reflexivity. Qed.

(** ** The handle and the connection state *)

(** The start-up, await by await, ends in the world that the two
    effects give when each is run in one piece. *)
Lemma startup_agrees (h : gmap nat Port) (g : list nat) (answer : Answer) :
  started h g answer
  = run (mount h g) [do_init_effect; do_autoconnect_effect answer].
Proof.
  unfold started, found, starting, exec, autoConnect_rest, openPort.
  cbn [run foldl step].
  unfold autoconnect_effect, autoconnect_guard, init_effect,
    init_effect_then, init_effect_call, autoConnect_call, exec,
    autoConnectToPort, openPort.
  destruct g as [|first g]; [reflexivity|].
  run_async.
  change (port_at _ first) with (h !!! first).
  by destruct (readable (h !!! first)), answer.
Qed.

(** While [autoConnectToPort] waits for the platform, the state is
    "opening" and no port is held yet. *)
Lemma startup_opening_without_handle (h : gmap nat Port) (g : list nat) :
  portState (starting h g) = opening ∧ portRef (starting h g) = None.
Proof. by split. Qed.

(** C2, as stated, fails.  One port is granted to the page and the
    platform rejects the [open] of the start-up.  The callback of the
    start-up effect has stored the port in [portRef] (line 321) while
    [autoConnectToPort] was waiting; the rejected [open] puts the state
    back to "closed" (line 210) and nothing clears [portRef]: a handle
    is held while the state is "closed". *)
Lemma handle_held_after_rejected_open :
  let w := started {[ 0%nat := the_port ]} [0%nat] (Rejected "busy") in
  portState (found {[ 0%nat := the_port ]} [0%nat]) = opening ∧
  portRef (found {[ 0%nat := the_port ]} [0%nat]) = Some 0%nat ∧
  calls w = [call_getPorts; call_getPorts; call_open 0 default_options] ∧
  portState w = closed ∧ portRef w = Some 0%nat ∧
  ¬ handle_iff_connected w.
Proof.
  repeat split; try reflexivity.
  intros [Hheld _].
  assert (Hin : closed ∈ [opening; open; closing])
    by (apply Hheld; eexists; reflexivity).
  rewrite !elem_of_cons, elem_of_nil in Hin.
  destruct Hin as [?|[?|[?|[]]]]; discriminate.
Qed.

(** C2, amended: in every state a session reaches, a port is held
    whenever the connection state is "open"; once the state has been
    "open", that is once an [open] has succeeded, a port is held in
    every later state, be it "opening", "open", "closing" or "closed";
    and a port once held stays held whatever happens next. *)
Theorem handle_held_once_opened (h : gmap nat Port) (g : list nat)
    (l l' : list Action) :
  let w := run (mount h g) l in
  let w' := run w l' in
  (portState w = open -> is_Some (portRef w)) ∧
  (portState w = open -> is_Some (portRef w')) ∧
  (is_Some (portRef w) -> is_Some (portRef w')).
Proof.
  intros w w'.
  assert (Hopen : portState w = open -> is_Some (portRef w))
    by (apply run_open_holds; discriminate).
  assert (Hkept : is_Some (portRef w) -> is_Some (portRef w'))
    by apply run_portRef.
  split_and!; [exact Hopen | by auto | exact Hkept].
Qed.

Lemma handle_held_once_opened_witness :
  let w := run mounted [do_init_effect; do_autoconnect_effect Resolved] in
  let w' := run w [do_closePort Resolved; do_manualConnectToPort None Resolved]
  in
  portState w = open ∧ is_Some (portRef w) ∧ is_Some (portRef w').
Proof.
  pose proof (handle_held_once_opened {[ 0%nat := the_port ]} [0%nat]
    [do_init_effect; do_autoconnect_effect Resolved]
    [do_closePort Resolved; do_manualConnectToPort None Resolved])
    as (Hopen & Hlater & _).
  split; [reflexivity|].
  split; [exact (Hopen eq_refl) | exact (Hlater eq_refl)].
Defined.

(** ** Auto-connect *)

Lemma autoConnectToPort_no_ports (w : World) (answer : Answer) :
  portState w = closed -> granted w = [] ->
  autoConnectToPort answer w
  = (Returned false,
     if canUseSerial w
     then set_hasTriedAutoconnect true
            (set_portState closed
               (log_call call_getPorts (set_portState opening w)))
     else w).
Proof.
  intros Hs Hg. unfold autoConnectToPort; run_async. rewrite Hs, Hg.
  by destruct (canUseSerial w).
Qed.

(** [autoConnectToPort] is its part before the [await] followed by its
    part after it. *)
Lemma autoConnectToPort_split (w : World) (answer : Answer) :
  canUseSerial w = true -> portState w = closed ->
  autoConnectToPort answer w = autoConnect_rest answer (autoConnect_call w).
Proof.
  intros Hc Hs. unfold autoConnectToPort, autoConnect_rest, autoConnect_call.
  run_async. rewrite Hc, Hs. simpl. by destruct (granted w).
Qed.

(** The cache [webSerialContext] is not read by [autoConnectToPort], nor
    written: with another cache the call settles in the same way and
    leaves the same cells. *)
Lemma autoConnectToPort_ignores_cache (w : World) (answer : Answer)
    (c : WebSerialContext) :
  autoConnectToPort answer (set_webSerialContext c w)
  = (outcome (autoConnectToPort answer) w,
     set_webSerialContext c (exec (autoConnectToPort answer) w)).
Proof.
  unfold outcome, exec, autoConnectToPort, openPort. run_async.
  destruct (canUseSerial w), (bool_decide (portState w = closed));
    simpl; try reflexivity.
  destruct (granted w) as [|p rest]; [reflexivity|].
  change (port_at (log_call _ (set_portState _ (set_webSerialContext c w))) p)
    with (port_at w p).
  change (port_at (log_call _ (set_portState _ w)) p) with (port_at w p).
  by destruct (readable (port_at w p)), answer.
Qed.

(** C9, as stated, fails.  The cache of the granted ports is
    [webSerialContext.ports]; [autoConnectToPort] does not look at it,
    it asks the platform (line 154).  At start-up, with one port granted
    to the page, the auto-connect effect calls [autoConnectToPort] while
    the cache is empty, since the callback that fills it has not run
    yet: the call returns true and leaves the state "open". *)
Lemma autoConnect_with_empty_cache :
  let w := init_effect_call mounted in
  context_ports (webSerialContext w) = [] ∧
  portState w = closed ∧ autoconnect_guard w = true ∧
  context_ports (webSerialContext (autoConnect_call w)) = [] ∧
  outcome (autoConnect_rest Resolved) (init_effect_then (autoConnect_call w))
  = Returned true ∧
  portState (started {[ 0%nat := the_port ]} [0%nat] Resolved) = open ∧
  outcome (autoConnectToPort Resolved) w = Returned true ∧
  outcome (autoConnectToPort Resolved) w ≠ Returned false ∧
  portState (exec (autoConnectToPort Resolved) w) = open ∧
  context_ports (webSerialContext (exec (autoConnectToPort Resolved) w)) = [].
Proof. split_and!; try reflexivity. discriminate. Qed.

(** C9, amended: called in state "closed" while the platform, asked at
    the call, has no granted port, [autoConnectToPort] returns false and
    the state is "closed" again; the flag [hasTriedAutoconnect] is set,
    and from then on the guard of the auto-connect effect is false,
    whatever happens to the session: the effect does not call
    [autoConnectToPort] a second time. *)
Theorem autoConnect_without_ports (w : World) (answer : Answer)
    (l : list Action) :
  portState w = closed -> granted w = [] ->
  let w' := exec (autoConnectToPort answer) w in
  outcome (autoConnectToPort answer) w = Returned false ∧
  portState w' = closed ∧
  (canUseSerial w = true ->
   hasTriedAutoconnect w' = true ∧ calls w' = calls w ++ [call_getPorts]) ∧
  autoconnect_guard (run w' l) = false ∧
  autoconnect_effect answer (run w' l) = run w' l.
Proof.
  intros Hs Hg w'. subst w'. unfold outcome, exec.
  rewrite (autoConnectToPort_no_ports _ _ Hs Hg); simpl.
  assert (Hguard :
    autoconnect_guard
      (run (if canUseSerial w
            then set_hasTriedAutoconnect true
                   (set_portState closed
                      (log_call call_getPorts (set_portState opening w)))
            else w) l) = false).
  { unfold autoconnect_guard. rewrite run_canUseSerial.
    destruct (canUseSerial w) eqn:Hc; simpl; [|by rewrite Hc].
    by rewrite run_hasTriedAutoconnect, andb_false_r. }
  split; [done|]. split; [by destruct (canUseSerial w)|].
  split; [by intros ->|].
  split; [exact Hguard|].
  unfold autoconnect_effect. by rewrite Hguard.
Qed.

Lemma autoConnect_without_ports_witness :
  let w := mount ∅ [] in
  portState w = closed ∧ granted w = [] ∧
  let w' := exec (autoConnectToPort Resolved) w in
  outcome (autoConnectToPort Resolved) w = Returned false ∧
  portState w' = closed ∧
  hasTriedAutoconnect w' = true ∧
  autoconnect_guard
    (run w' [do_init_effect; do_autoconnect_effect Resolved]) = false.
Proof.
  pose proof (autoConnect_without_ports (mount ∅ []) Resolved
    [do_init_effect; do_autoconnect_effect Resolved] eq_refl eq_refl)
    as (Hret & Hst & Hflag & Hguard & _).
  split; [reflexivity|]. split; [reflexivity|].
  split; [exact Hret|]. split; [exact Hst|].
  split; [exact (proj1 (Hflag eq_refl)) | exact Hguard].
Defined.

(** ** Closing while the read loop runs *)

Lemma stopReading_sets_flag (w : World) (p : nat) (s : Stream) :
  portRef w = Some p -> readable (port_at w p) = Some s ->
  stopReading w
  = (Returned tt,
     update_port p (set_cancelRequested true) (set_isReading false w)).
Proof. intros Hp Hr. unfold stopReading; run_async. by rewrite Hp, Hr. Qed.

(** With no loop holding the lock, [closePort] goes through right after
    [stopReading]. *)
Lemma close_without_loop (w : World) (p : nat) (s : Stream) :
  portRef w = Some p -> readable (port_at w p) = Some s ->
  locked s = false ->
  outcome (closePort Resolved) (exec stopReading w) = Returned tt.
Proof.
  intros Hp Hr Hl. unfold exec, outcome.
  rewrite (stopReading_sets_flag _ _ _ Hp Hr); simpl.
  rewrite (closePort_unlocked _ p s); [done | exact Hp | | exact Hl].
  by rewrite port_at_update_port_eq.
Qed.

(** C5, second half as stated, fails: [stopReading] only sets the flag,
    and the loop keeps the lock until its next read settles; closing
    right after [stopReading] throws "Port is locked". *)
Lemma close_right_after_stopReading :
  outcome stopReading reading = Returned tt ∧
  outcome (closePort Resolved) (exec stopReading reading) = Thrown PortLocked ∧
  outcome (closePort Resolved) (exec stopReading reading) ≠ Returned tt.
Proof.
  split; [reflexivity|]. split; [reflexivity|].
  intros Hok. vm_compute in Hok. discriminate Hok.
Qed.

(** C5, amended: [closePort] throws "Port is locked" while the readable
    stream of the held port is locked, also right after [stopReading];
    once [stopReading] has returned and the read the loop was waiting for
    has settled, the loop has released the lock and [closePort] goes
    through to the platform's [close]. *)
Theorem close_after_loop_released (w : World) (p : nat) (s : Stream)
    (answer : Answer) (completeString : list N) (r : ReadResult) :
  portRef w = Some p -> readable (port_at w p) = Some s ->
  loops w !! p = Some completeString ->
  let w1 := exec stopReading w in
  let w2 := read_resolved p r w1 in
  (locked s = true -> closePort answer w = (Thrown PortLocked, w)) ∧
  outcome stopReading w = Returned tt ∧
  (locked s = true -> closePort answer w1 = (Thrown PortLocked, w1)) ∧
  outcome (closePort Resolved) w2 = Returned tt ∧
  calls (exec (closePort Resolved) w2) = calls w ++ [call_close p].
Proof.
  intros Hp Hr Hl w1 w2.
  assert (Hw1 : w1 = update_port p (set_cancelRequested true)
                       (set_isReading false w))
    by (subst w1; unfold exec; by rewrite (stopReading_sets_flag _ _ _ Hp Hr)).
  assert (Hr1 : readable (port_at w1 p) = Some s).
  { rewrite Hw1, port_at_update_port_eq. exact Hr. }
  assert (Hc1 : cancelRequested (port_at w1 p) = true).
  { rewrite Hw1, port_at_update_port_eq. reflexivity. }
  assert (Hw2 : portRef w2 = Some p ∧ calls w2 = calls w ∧
                readable (port_at w2 p) = Some unlocked).
  { subst w2. unfold read_resolved.
    replace (loops w1 !! p) with (Some completeString)
      by (rewrite Hw1; symmetry; exact Hl).
    destruct (on_read completeString r) as [[m|] cs];
      match goal with
      | |- context [cancelRequested (port_at ?x p)] =>
          change (port_at x p) with (port_at w1 p)
      end;
      rewrite Hc1; unfold loop_exit, releaseLock;
      match goal with
      | |- context [update_port p ?f ?x] =>
          change (port_at (set_loops ?l (update_port p f x)) p)
            with (port_at (update_port p f x) p);
          rewrite (port_at_update_port_eq p f x);
          change (port_at x p) with (port_at w1 p)
      end;
      rewrite Hr1; simpl; rewrite Hw1; simpl; by rewrite Hp. }
  destruct Hw2 as (Hp2 & Hcalls2 & Hr2).
  split; [intros Hlk; by apply (closePort_locked _ _ _ _ Hp Hr)|].
  split; [unfold outcome; by rewrite (stopReading_sets_flag _ _ _ Hp Hr)|].
  split.
  { intros Hlk.
    apply (closePort_locked _ p s); [rewrite Hw1; exact Hp | exact Hr1 | exact Hlk]. }
  unfold outcome, exec.
  rewrite (closePort_unlocked _ _ _ Hp2 Hr2 eq_refl); simpl.
  by rewrite Hcalls2.
Qed.

Lemma close_after_loop_released_witness :
  portRef reading = Some 0%nat ∧
  readable (port_at reading 0) = Some {| locked := true |} ∧
  loops reading !! 0%nat = Some [] ∧
  let w1 := exec stopReading reading in
  let w2 := read_resolved 0 (chunk_read [x41]) w1 in
  closePort Resolved reading = (Thrown PortLocked, reading) ∧
  closePort Resolved w1 = (Thrown PortLocked, w1) ∧
  outcome (closePort Resolved) w2 = Returned tt ∧
  calls (exec (closePort Resolved) w2) = calls reading ++ [call_close 0].
Proof.
  pose proof (close_after_loop_released reading 0 {| locked := true |}
    Resolved [] (chunk_read [x41]) eq_refl eq_refl eq_refl)
    as (Hlocked & _ & Hstill & Hgoes & Hcalls).
  split; [reflexivity|]. split; [reflexivity|]. split; [reflexivity|].
  split; [exact (Hlocked eq_refl)|].
  split; [exact (Hstill eq_refl)|].
  split; [exact Hgoes | exact Hcalls].
Defined.

(** ** Decoding chunk by chunk *)

Section Decoding.

Import Utf8.

Lemma handler_closed (d : decoder) (b : N) :
  bytes_needed (fst (handler d b)) = 0 -> fst (handler d b) = initial.
Proof.
  unfold handler, lead.
  destruct (bytes_needed d =? 0) eqn:Hn; repeat case_match;
    simplify_eq/=; try done.
  intros Hz. rewrite Hz in Hn. discriminate Hn.
Qed.

Lemma decoder_run_cons (d : decoder) (b : byte) (bs : list byte) :
  run d (b :: bs)
  = (fst (run (fst (handler d (Byte.to_N b))) bs),
     snd (handler d (Byte.to_N b))
       ++ snd (run (fst (handler d (Byte.to_N b))) bs)).
Proof.
  simpl. destruct (handler d (Byte.to_N b)) as [d1 o1]; simpl.
  by destruct (run d1 bs).
Qed.

Lemma decoder_run_app (d : decoder) (a b : list byte) :
  run d (a ++ b)
  = (fst (run (fst (run d a)) b),
     snd (run d a) ++ snd (run (fst (run d a)) b)).
Proof.
  revert d. induction a as [|x a IH]; intros d.
  - simpl. by destruct (run d b).
  - rewrite <- app_comm_cons, !decoder_run_cons, IH; simpl.
    by rewrite app_assoc.
Qed.

Lemma decoder_run_closed (d : decoder) (bs : list byte) :
  bs ≠ [] -> bytes_needed (fst (run d bs)) = 0 -> fst (run d bs) = initial.
Proof.
  revert d. induction bs as [|b bs IH]; intros d Hne; [done|].
  rewrite decoder_run_cons; simpl. destruct bs as [|b' bs].
  - simpl. apply handler_closed.
  - by apply IH.
Qed.

Lemma ends_on_boundary_initial (bs : list byte) :
  ends_on_boundary bs = true -> fst (run initial bs) = initial.
Proof.
  unfold ends_on_boundary. intros H%N.eqb_eq.
  destruct bs as [|b bs]; [done|]. by apply decoder_run_closed.
Qed.

Lemma raw_code_points_eq (bs : list byte) :
  raw_code_points bs
  = snd (run initial bs) ++ flush (fst (run initial bs)).
Proof. unfold raw_code_points. by destruct (run initial bs). Qed.

Lemma raw_code_points_app (a b : list byte) :
  ends_on_boundary a = true ->
  raw_code_points (a ++ b) = raw_code_points a ++ raw_code_points b.
Proof.
  intros Ha. rewrite !raw_code_points_eq, decoder_run_app; simpl.
  rewrite (ends_on_boundary_initial _ Ha); simpl.
  by rewrite app_nil_r, app_assoc.
Qed.

Lemma raw_code_points_concat (chunks : list (list byte)) :
  Forall (fun c => ends_on_boundary c = true) chunks ->
  raw_code_points (concat chunks) = concat (map raw_code_points chunks).
Proof.
  induction 1 as [|c chunks Hc _ IH]; [done|].
  simpl. by rewrite raw_code_points_app, IH.
Qed.

Lemma strip_bom_without (cps : list N) :
  head cps ≠ Some byte_order_mark -> strip_bom cps = cps.
Proof.
  destruct cps as [|c cps]; [done|]. simpl. intros H.
  destruct (c =? byte_order_mark) eqn:E; [|done].
  apply N.eqb_eq in E. by subst.
Qed.

Lemma begins_with_bom_head (c : list byte) :
  begins_with_bom c = false ->
  head (raw_code_points c) ≠ Some byte_order_mark.
Proof.
  unfold begins_with_bom. destruct (raw_code_points c) as [|x l]; [done|].
  simpl. intros H%N.eqb_neq. congruence.
Qed.

Lemma head_concat_without (chunks : list (list byte)) :
  Forall (fun c => begins_with_bom c = false) chunks ->
  head (concat (map raw_code_points chunks)) ≠ Some byte_order_mark.
Proof.
  induction 1 as [|c chunks Hc _ IH]; [done|]. simpl.
  pose proof (begins_with_bom_head _ Hc) as Hh.
  by destruct (raw_code_points c).
Qed.

Lemma code_points_without (chunks : list (list byte)) :
  Forall (fun c => begins_with_bom c = false) chunks ->
  map code_points chunks = map raw_code_points chunks.
Proof.
  induction 1 as [|c chunks Hc _ IH]; [done|]. simpl. rewrite IH.
  unfold code_points at 1.
  by rewrite (strip_bom_without _ (begins_with_bom_head _ Hc)).
Qed.

Lemma accumulated_code_points (chunks : list (list byte)) :
  accumulated chunks = flat_map utf16 (concat (map code_points chunks)).
Proof.
  induction chunks as [|c chunks IH]; [done|].
  change (accumulated (c :: chunks))
    with (decode (Some c) ++ accumulated chunks).
  rewrite IH. simpl. by rewrite flat_map_app.
Qed.

(** C4, as stated, fails: the two bytes of U+00E9 in two chunks give two
    U+FFFD, not the one character they give in one chunk. *)
Lemma split_sequence_is_replaced :
  accumulated [[xc3]; [xa9]] = [0xFFFD; 0xFFFD] ∧
  decode (Some (concat [[xc3]; [xa9]])) = [0xE9] ∧
  accumulated [[xc3]; [xa9]] ≠ decode (Some (concat [[xc3]; [xa9]])).
Proof.
  split; [reflexivity|]. split; [reflexivity|].
  intros H. vm_compute in H. discriminate H.
Qed.

(** C4, amended: every chunk is decoded by a call of its own.  When no
    chunk ends inside a multi-byte sequence and no chunk after the first
    begins with a byte order mark, the text accumulated from the chunks
    is the text of the whole stream decoded as one chunk. *)
Theorem decode_chunks_on_boundaries (chunks : list (list byte)) :
  Forall (fun c => ends_on_boundary c = true) chunks ->
  Forall (fun c => begins_with_bom c = false) (tail chunks) ->
  accumulated chunks = decode (Some (concat chunks)).
Proof.
  intros Hb Ht. rewrite accumulated_code_points. simpl. f_equal.
  unfold code_points at 2. rewrite (raw_code_points_concat _ Hb).
  destruct chunks as [|c chunks]; [done|]. simpl in *.
  rewrite (code_points_without _ Ht). unfold code_points.
  destruct (raw_code_points c) as [|x l] eqn:Hc; simpl.
  - symmetry. apply strip_bom_without, head_concat_without, Ht.
  - by destruct (x =? byte_order_mark).
Qed.

Lemma decode_chunks_on_boundaries_witness :
  let chunks := [[xef; xbb; xbf; xc3; xa9]; [xe2; x82; xac]; [x41]] in
  Forall (fun c => ends_on_boundary c = true) chunks ∧
  Forall (fun c => begins_with_bom c = false) (tail chunks) ∧
  accumulated chunks = decode (Some (concat chunks)).
Proof.
  assert (Hb : Forall (fun c => ends_on_boundary c = true)
                 [[xef; xbb; xbf; xc3; xa9]; [xe2; x82; xac]; [x41]])
    by (repeat constructor).
  assert (Ht : Forall (fun c => begins_with_bom c = false)
                 (tail [[xef; xbb; xbf; xc3; xa9]; [xe2; x82; xac]; [x41]]))
    by (repeat constructor).
  split; [exact Hb|]. split; [exact Ht|].
  exact (decode_chunks_on_boundaries _ Hb Ht).
Defined.

(** Bytes below 0x80 are decoded to themselves, however they are cut. *)
Lemma run_ascii (bs : list byte) :
  Forall (fun b => Byte.to_N b < 0x80) bs ->
  run initial bs = (initial, map Byte.to_N bs).
Proof.
  induction 1 as [|b bs Hb _ IH]; [done|].
  rewrite decoder_run_cons. unfold handler, lead; simpl.
  destruct (N.leb_spec (Byte.to_N b) 0x7F) as [_|Hgt]; [|lia].
  simpl. by rewrite IH.
Qed.

Lemma decode_ascii (bs : list byte) :
  Forall (fun b => Byte.to_N b < 0x80) bs ->
  decode (Some bs) = map Byte.to_N bs.
Proof.
  intros Hbs. unfold decode, code_points, raw_code_points.
  rewrite (run_ascii _ Hbs). simpl. rewrite app_nil_r.
  assert (Hstrip : strip_bom (map Byte.to_N bs) = map Byte.to_N bs).
  { destruct Hbs as [|b bs Hb _]; [done|]. simpl.
    destruct (N.eqb_spec (Byte.to_N b) byte_order_mark) as [E|_]; [|done].
    rewrite E in Hb. unfold byte_order_mark in Hb. lia. }
  rewrite Hstrip. clear Hstrip.
  induction Hbs as [|b bs Hb _ IH]; [done|]. simpl. rewrite IH.
  unfold utf16. destruct (N.ltb_spec (Byte.to_N b) 0x10000); [done | lia].
Qed.

Lemma accumulated_ascii (chunks : list (list byte)) :
  Forall (Forall (fun b => Byte.to_N b < 0x80)) chunks ->
  accumulated chunks = map Byte.to_N (concat chunks).
Proof.
  induction 1 as [|c chunks Hc _ IH]; [done|].
  change (accumulated (c :: chunks))
    with (decode (Some c) ++ accumulated chunks).
  rewrite IH, (decode_ascii _ Hc). simpl. by rewrite map_app.
Qed.

End Decoding.

(** ** The messages of the read loop *)

Section Framing.

Implicit Types acc text t : list N.

Lemma on_read_chunk acc (c : list byte) :
  on_read acc (chunk_read c)
  = if endsWith (acc ++ Utf8.decode (Some c)) terminator
    then (Some (acc ++ Utf8.decode (Some c)), [])
    else (None, acc ++ Utf8.decode (Some c)).
Proof. reflexivity. Qed.

(** Scanning the text of one chunk: either no message ends in it, or
    the first one ends after a part [p] of it. *)
Lemma messages_from_chunk acc t rest :
  (messages_from acc (t ++ rest) = messages_from (acc ++ t) rest ∧
   (t ≠ [] -> endsWith (acc ++ t) terminator = false)) ∨
  (∃ p q, t = p ++ q ∧ p ≠ [] ∧
          endsWith (acc ++ p) terminator = true ∧
          messages_from acc (t ++ rest)
          = (acc ++ p) :: messages_from [] (q ++ rest)).
Proof.
  revert acc. induction t as [|c t IH]; intros acc.
  - left. by rewrite app_nil_r.
  - simpl. destruct (endsWith (acc ++ [c]) terminator) eqn:E.
    + right. exists [c], t. split_and!; done.
    + destruct (IH (acc ++ [c])) as [[Hm Hn] | (p & q & -> & Hp & He & Hm)].
      * left. rewrite <- (app_assoc acc [c] t) in Hm, Hn. simpl in Hm, Hn.
        split; [exact Hm|]. intros _.
        destruct t as [|c' t]; [exact E | by apply Hn].
      * right. exists (c :: p), q.
        rewrite <- (app_assoc acc [c] p) in He, Hm.
        simpl in He, Hm. split_and!; done.
Qed.

Lemma messages_from_head acc text m (F : list (list N)) :
  messages_from acc text = m :: F -> (length acc < length m)%nat.
Proof.
  revert acc. induction text as [|c text IH]; intros acc; [done|].
  simpl. destruct (endsWith (acc ++ [c]) terminator).
  - intros [= <- _]. rewrite length_app. simpl. lia.
  - intros H%IH. rewrite length_app in H. simpl in H. lia.
Qed.

Lemma app_eq_self_inv (l k : list N) : l = l ++ k -> k = [].
Proof.
  intros H. apply (app_inv_head l). by rewrite app_nil_r.
Qed.

(** The loop and the scan agree from any buffer that does not itself
    end with the terminator, when every message ends where a chunk
    ends. *)
Lemma loop_agrees_with_scan acc (chunks : list (list byte)) :
  endsWith acc terminator = false ->
  (∀ i, (1 ≤ i ≤ length (messages_from acc (accumulated chunks)))%nat ->
        ∃ j, concat (take i (messages_from acc (accumulated chunks)))
             = acc ++ concat (take j (decoded chunks))) ->
  read_loop acc (map chunk_read chunks)
  = messages_from acc (accumulated chunks).
Proof.
  revert acc. induction chunks as [|c chunks IH]; intros acc Hacc Hb; [done|].
  change (accumulated (c :: chunks))
    with (Utf8.decode (Some c) ++ accumulated chunks) in *.
  change (decoded (c :: chunks))
    with (Utf8.decode (Some c) :: decoded chunks) in Hb.
  cbn [map read_loop]. rewrite on_read_chunk.
  set (t := Utf8.decode (Some c)) in *.
  destruct (messages_from_chunk acc t (accumulated chunks))
    as [[Hm Hn] | (p & q & Ht & Hp & He & Hm)].
  - (* no message ends inside this chunk *)
    assert (Hno : endsWith (acc ++ t) terminator = false).
    { destruct t as [|x t']; [by rewrite app_nil_r | by apply Hn]. }
    rewrite Hno, Hm. apply IH; [exact Hno|].
    intros i Hi. rewrite <- Hm in Hi |- *.
    destruct (Hb i Hi) as [j Hj]. rewrite Hj.
    destruct j as [|j].
    + exfalso.
      destruct (messages_from acc (t ++ accumulated chunks))
        as [|m F] eqn:HF; [simpl in Hi; lia|].
      assert (Hlen : (length (acc ++ t) < length m)%nat).
      { apply (messages_from_head _ (accumulated chunks) _ F).
        by rewrite <- Hm. }
      destruct i as [|i]; [lia|]. simpl in Hj.
      apply (f_equal length) in Hj.
      rewrite !length_app in *. simpl in Hj. lia.
    + exists j. simpl. by rewrite app_assoc.
  - (* a message ends after [p]: it must be the whole chunk *)
    assert (Hq : q = [] ∧ p = t).
    { assert (H1 : (1 ≤ 1 ≤ length
                      (messages_from acc (t ++ accumulated chunks)))%nat)
        by (rewrite Hm; simpl; lia).
      destruct (Hb 1%nat H1) as [j Hj]. rewrite Hm in Hj. simpl in Hj.
      rewrite app_nil_r in Hj. apply app_inv_head in Hj.
      destruct j as [|j]; [done|]. simpl in Hj.
      rewrite Ht, <- app_assoc in Hj. apply app_eq_self_inv in Hj.
      apply app_eq_nil in Hj as [-> _]. by rewrite app_nil_r in Ht. }
    destruct Hq as [-> ->]. rewrite He, Hm. f_equal. simpl.
    simpl in Hm. apply IH; [reflexivity|].
    intros i Hi.
    assert (Hi' : (1 ≤ S i ≤ length
                     (messages_from acc (t ++ accumulated chunks)))%nat)
      by (rewrite Hm; simpl; lia).
    destruct (Hb (S i) Hi') as [j Hj]. rewrite Hm in Hj. simpl in Hj.
    rewrite <- app_assoc in Hj. apply app_inv_head in Hj.
    destruct j as [|j].
    + exists 0%nat. simpl in Hj.
      by apply app_eq_nil in Hj as [_ ->].
    + exists j. simpl in Hj. by apply app_inv_head in Hj.
Qed.

(** The reads of a running loop, one after the other, while nobody
    asks it to stop. *)
Lemma run_reads (reads : list ReadResult) (w : World) (p : nat) acc :
  loops w !! p = Some acc -> cancelRequested (port_at w p) = false ->
  onData (run w (map (do_read_resolved p) reads))
  = onData w ++ read_loop acc reads.
Proof.
  revert w acc. induction reads as [|r reads IH]; intros w acc Hl Hc.
  - simpl. by rewrite app_nil_r.
  - cbn [map run foldl read_loop]. fold (run (step w (do_read_resolved p r))
      (map (do_read_resolved p) reads)).
    cbn [step]. unfold read_resolved. rewrite Hl.
    destruct (on_read acc r) as [[m|] acc'].
    + change (port_at (set_onData (onData w ++ [m]) w) p) with (port_at w p).
      rewrite Hc.
      rewrite (IH _ acc'); [|simpl; apply lookup_insert_eq | exact Hc].
      simpl. by rewrite <- app_assoc.
    + rewrite Hc. rewrite (IH _ acc'); [done | simpl; apply lookup_insert_eq
                                        | exact Hc].
Qed.

(** The terminator does not overlap itself: after one occurrence, the
    next cannot end before four more code units have been read. *)
Lemma terminator_no_border (k k' s : list N) :
  (0 < length s < 4)%nat -> k ++ terminator ++ s ≠ k' ++ terminator.
Proof.
  intros Hlen H. apply (f_equal reverse) in H.
  rewrite !reverse_app in H.
  change (reverse terminator) with [32; 62; 104; 99] in H.
  destruct s as [|a [|b [|c [|d s]]]]; simpl in Hlen; try lia;
    cbn in H; discriminate H.
Qed.

Lemma suffix_since_last (prev acc : list N) (c : N) :
  prev = [] ∨ terminator `suffix_of` prev ->
  terminator `suffix_of` (prev ++ acc) ++ [c] ->
  terminator `suffix_of` acc ++ [c].
Proof.
  intros Hprev Hs. destruct Hprev as [-> | [k ->]]; [exact Hs|].
  destruct (decide (4 ≤ length (acc ++ [c]))%nat) as [Hge | Hlt].
  - destruct (suffix_weak_total terminator (acc ++ [c])
                (((k ++ terminator) ++ acc) ++ [c])) as [H | H].
    + exact Hs.
    + rewrite <- app_assoc. apply suffix_app_r. reflexivity.
    + exact H.
    + rewrite (suffix_length_eq _ _ H); [reflexivity | exact Hge].
  - exfalso. destruct Hs as [k' Hk'].
    apply (terminator_no_border k k' (acc ++ [c])).
    + rewrite length_app in *. simpl in *. lia.
    + rewrite <- Hk'. by rewrite <- !app_assoc.
Qed.

Lemma filter_fmap_S (P : nat -> Prop) `{!∀ e, Decision (P e)}
    (l : list nat) :
  filter P (S <$> l) = S <$> filter (fun e => P (S e)) l.
Proof.
  induction l as [|x l IH]; [done|].
  rewrite fmap_cons, !filter_cons.
  destruct (decide (P (S x))); simpl; by rewrite IH.
Qed.

Lemma ends_of_cons (m : list N) (ms : list (list N)) :
  ends_of (m :: ms)
  = length m :: ((fun e => length m + e)%nat <$> ends_of ms).
Proof.
  unfold ends_of. cbn [length seq].
  rewrite <- fmap_S_seq, fmap_cons, <- !list_fmap_compose. f_equal.
  - simpl. by rewrite app_nil_r.
  - apply list_fmap_ext. intros i x _. simpl. by rewrite length_app.
Qed.

(** The pass over the text stops at every occurrence of the terminator
    and nowhere else. *)
Lemma occurrences_from (hist acc text : list N) :
  (∃ prev, hist = prev ++ acc ∧
           (prev = [] ∨ terminator `suffix_of` prev)) ->
  (fun e => e + length acc)%nat
    <$> filter (fun e => terminator `suffix_of` hist ++ take e text)
          (seq 1 (length text))
  = ends_of (messages_from acc text).
Proof.
  revert hist acc. induction text as [|c text IH]; intros hist acc Hsync;
    [done|].
  destruct Hsync as (prev & -> & Hprev).
  cbn [length seq messages_from].
  rewrite <- fmap_S_seq, filter_cons, filter_fmap_S.
  change (take 1 (c :: text)) with [c].
  rewrite (list_filter_iff _
    (fun e => terminator `suffix_of` ((prev ++ acc) ++ [c]) ++ take e text))
    by (intros e; simpl; by rewrite <- (app_assoc _ [c])).
  unfold endsWith.
  destruct (decide (terminator `suffix_of` (prev ++ acc) ++ [c])) as [Hs | Hn].
  - rewrite bool_decide_eq_true_2
      by (by apply (suffix_since_last prev)).
    rewrite ends_of_cons, fmap_cons, length_app. simpl. f_equal; [lia|].
    rewrite <- (IH ((prev ++ acc) ++ [c]) [])
      by (exists ((prev ++ acc) ++ [c]); rewrite app_nil_r; by split; [|right]).
    rewrite <- !list_fmap_compose. apply list_fmap_ext.
    intros i x _. simpl. lia.
  - rewrite bool_decide_eq_false_2
      by (intros H; apply Hn; rewrite <- app_assoc; by apply suffix_app_r).
    rewrite <- (IH ((prev ++ acc) ++ [c]) (acc ++ [c]))
      by (exists prev; by rewrite <- app_assoc; split).
    rewrite <- !list_fmap_compose. apply list_fmap_ext.
    intros i x _. simpl. rewrite length_app. simpl. lia.
Qed.

Lemma occurrences_messages (text : list N) :
  occurrences text = ends_of (messages text).
Proof.
  unfold messages.
  rewrite <- (occurrences_from [] [] text) by (exists []; by split; [|left]).
  unfold occurrences. simpl.
  rewrite <- (list_fmap_id (filter _ _)) at 1.
  apply list_fmap_ext. intros i x _. simpl. lia.
Qed.

(** Every message ends with the terminator, and the messages are the
    text from its start on. *)
Lemma messages_from_end acc text :
  Forall (fun m => terminator `suffix_of` m) (messages_from acc text).
Proof.
  revert acc. induction text as [|c text IH]; intros acc; [constructor|].
  simpl. unfold endsWith. case_bool_decide; [constructor|]; auto.
Qed.

Lemma messages_from_prefix acc text :
  concat (messages_from acc text) `prefix_of` acc ++ text.
Proof.
  revert acc. induction text as [|c text IH]; intros acc.
  - apply prefix_nil.
  - simpl. destruct (endsWith (acc ++ [c]) terminator).
    + simpl. rewrite (cons_middle c acc text), app_assoc.
      apply prefix_app, (IH []).
    + rewrite (cons_middle c acc text), app_assoc. apply IH.
Qed.

(** Cutting a text where its first parts end gives these parts back. *)
Lemma cut_ends_of (start : nat) (msgs : list (list N)) (text : list N) :
  concat msgs `prefix_of` text ->
  cut start ((fun e => start + e)%nat <$> ends_of msgs) text = msgs.
Proof.
  revert start text. induction msgs as [|m ms IH]; intros start text Hp;
    [done|].
  destruct Hp as [k ->]. rewrite ends_of_cons, fmap_cons. cbn [cut].
  replace (start + length m - start)%nat with (length m) by lia.
  simpl. rewrite <- !app_assoc, take_app_length, drop_app_length. f_equal.
  rewrite <- list_fmap_compose.
  rewrite (list_fmap_ext _ (fun e => (start + length m) + e)%nat)
    by (intros i x _; simpl; lia).
  apply IH. by exists k.
Qed.

(** The messages found by the pass are the expected ones. *)
Lemma messages_expected (text : list N) :
  messages text = expected_messages text.
Proof.
  unfold expected_messages. rewrite occurrences_messages.
  rewrite <- (list_fmap_id (ends_of _)).
  symmetry. apply (cut_ends_of 0). apply (messages_from_prefix [] text).
Qed.

Lemma expected_messages_length (text : list N) :
  length (expected_messages text) = length (occurrences text).
Proof.
  rewrite <- messages_expected, occurrences_messages.
  unfold ends_of. by rewrite length_fmap, length_seq.
Qed.

Lemma concat_take_prefix (parts : list (list N)) (j : nat) :
  concat (take j parts) `prefix_of` concat parts.
Proof.
  exists (concat (drop j parts)). by rewrite <- concat_app, take_drop.
Qed.

(** When every occurrence of the terminator ends where a chunk ends,
    so does every message. *)
Lemma occurrences_on_chunk_boundaries (texts : list (list N)) :
  Forall (fun e => e ∈ ends_of texts) (occurrences (concat texts)) ->
  on_chunk_boundaries (messages (concat texts)) texts.
Proof.
  intros Hocc i Hi. destruct i as [|i]; [by exists 0%nat|].
  rewrite Forall_forall in Hocc.
  assert (He : length (concat (take (S i) (messages (concat texts))))
               ∈ occurrences (concat texts)).
  { rewrite occurrences_messages. unfold ends_of.
    apply (list_elem_of_fmap_2
             (fun j => length (concat (take j (messages (concat texts)))))).
    apply elem_of_seq. lia. }
  apply Hocc, list_elem_of_fmap in He as (j & Hj & _).
  exists j.
  destruct (prefix_weak_total
              (concat (take (S i) (messages (concat texts))))
              (concat (take j texts)) (concat texts)) as [H | H].
  - etrans; [apply concat_take_prefix|].
    apply (messages_from_prefix [] (concat texts)).
  - apply concat_take_prefix.
  - apply (prefix_length_eq _ _ H). lia.
  - symmetry. apply (prefix_length_eq _ _ H). lia.
Qed.

End Framing.

(** C1, as stated, fails: the prompt occurs once in the text of this
    chunk, but not at its end, and [onData] is not called. *)
Lemma terminator_inside_chunk :
  let chunks := [String.list_byte_of_string "ch> x"] in
  occurrences (accumulated chunks) = [4%nat] ∧
  expected_messages (accumulated chunks) = [js "ch> "] ∧
  onData (run reading (map (do_read_resolved 0) (map chunk_read chunks)))
  = [].
Proof. repeat split; reflexivity. Qed.

(** C1, amended: while nobody asks the loop to stop and the stream does
    not end, if the text decoded from the chunks has k occurrences of
    the terminator and each of them ends where a chunk ends, [onData] is
    called k times, the i-th time with the text from the end of the
    previous occurrence up to and including the i-th. *)
Theorem read_loop_messages (w : World) (p : nat)
    (chunks : list (list byte)) :
  loops w !! p = Some [] -> cancelRequested (port_at w p) = false ->
  Forall (fun e => e ∈ ends_of (decoded chunks))
    (occurrences (accumulated chunks)) ->
  onData (run w (map (do_read_resolved p) (map chunk_read chunks)))
  = onData w ++ expected_messages (accumulated chunks) ∧
  length (expected_messages (accumulated chunks))
  = length (occurrences (accumulated chunks)).
Proof.
  intros Hl Hc Hocc. split; [|apply expected_messages_length].
  rewrite (run_reads _ _ _ [] Hl Hc), <- messages_expected. f_equal.
  apply loop_agrees_with_scan; [reflexivity|].
  intros i [_ Hi].
  destruct (occurrences_on_chunk_boundaries _ Hocc i Hi) as [j Hj].
  by exists j.
Qed.

Lemma read_loop_messages_witness :
  let chunks := map String.list_byte_of_string
                  ["ab"; "c"; "h> "; "xch> "; "y"]%string in
  loops reading !! 0%nat = Some [] ∧
  cancelRequested (port_at reading 0) = false ∧
  Forall (fun e => e ∈ ends_of (decoded chunks))
    (occurrences (accumulated chunks)) ∧
  onData (run reading (map (do_read_resolved 0) (map chunk_read chunks)))
  = [js "abch> "; js "xch> "] ∧
  length (occurrences (accumulated chunks)) = 2%nat.
Proof.
  intros chunks.
  assert (Hocc : Forall (fun e => e ∈ ends_of (decoded chunks))
                   (occurrences (accumulated chunks)))
    by (vm_compute; repeat constructor).
  destruct (read_loop_messages reading 0 chunks eq_refl eq_refl Hocc)
    as [Hdata Hcount].
  split; [reflexivity|]. split; [reflexivity|]. split; [exact Hocc|].
  split; [exact Hdata | by rewrite <- Hcount].
Defined.

(** Two prompts in one chunk make one call, with the whole text. *)
Example two_prompts_in_one_chunk :
  let chunks := [String.list_byte_of_string "ach> bch> "] in
  length (occurrences (accumulated chunks)) = 2%nat ∧
  read_loop [] (map chunk_read chunks) = [js "ach> bch> "].
Proof. split; reflexivity. Qed.

(** The end of the stream hands over what is left, and the loop goes on:
    every further read reports the end again and calls [onData] with the
    empty text. *)
Example end_of_stream :
  read_loop []
    [chunk_read (String.list_byte_of_string "ab");
     {| done := true; value := None |};
     {| done := true; value := None |}]
  = [js "ab"; []].
Proof. reflexivity. Qed.

(** * Further properties of the hook *)

(** ** Connecting *)

Lemma connect_refused (w : World) (choice : option nat) (answer : Answer) :
  portState w ≠ closed ∨ canUseSerial w = false ->
  manualConnectToPort choice answer w = (Returned false, w) ∧
  autoConnectToPort answer w = (Returned false, w).
Proof.
  intros H. unfold manualConnectToPort, autoConnectToPort; run_async.
  assert (Hg : canUseSerial w && bool_decide (portState w = closed) = false).
  { destruct H as [H | ->]; [|done].
    rewrite bool_decide_eq_false_2 by done. apply andb_false_r. }
  by rewrite Hg.
Qed.

(** X1: both connect functions do nothing but return false unless the state
    is "closed" (and Web Serial is available): in state "opening" or
    "open" they ask the platform nothing, whatever port is offered. *)
Theorem connect_needs_closed (w : World) (choice : option nat)
    (answer : Answer) :
  portState w ≠ closed ∨ canUseSerial w = false ->
  manualConnectToPort choice answer w = (Returned false, w) ∧
  autoConnectToPort answer w = (Returned false, w) ∧
  autoconnect_effect answer w = w.
Proof.
  intros H. destruct (connect_refused w choice answer H) as [Hm Ha].
  split; [exact Hm|]. split; [exact Ha|].
  unfold autoconnect_effect, exec. rewrite Ha. by destruct (autoconnect_guard w).
Qed.

Lemma connect_needs_closed_witness :
  (portState opened ≠ closed ∨ canUseSerial opened = false) ∧
  manualConnectToPort (Some 0%nat) Resolved opened = (Returned false, opened) ∧
  autoConnectToPort Resolved opened = (Returned false, opened).
Proof.
  assert (H : portState opened ≠ closed ∨ canUseSerial opened = false)
    by (left; discriminate).
  split; [exact H|].
  destruct (connect_needs_closed opened (Some 0%nat) Resolved H)
    as (Hm & Ha & _).
  split; [exact Hm | exact Ha].
Defined.

(** The connect functions from "closed", step by step. *)
Lemma manualConnectToPort_closed (w : World) (choice : option nat)
    (answer : Answer) :
  canUseSerial w = true -> portState w = closed ->
  manualConnectToPort choice answer w
  = match choice with
    | Some port =>
        (Returned true,
         exec (openPort (Some port) answer)
           (log_call call_requestPort (set_portState opening w)))
    | None =>
        (Returned false,
         set_portState closed
           (log_call call_requestPort (set_portState opening w)))
    end.
Proof.
  intros Hc Hs. unfold manualConnectToPort; run_async. rewrite Hc, Hs.
  by destruct choice.
Qed.

Lemma autoConnectToPort_closed (w : World) (p : nat) (rest : list nat)
    (answer : Answer) :
  canUseSerial w = true -> portState w = closed -> granted w = p :: rest ->
  autoConnectToPort answer w
  = match openPort (Some p) answer
            (log_call call_getPorts (set_portState opening w)) with
    | (Returned _, w') => (Returned true, w')
    | (Thrown e, w') => (Thrown e, w')
    end.
Proof.
  intros Hc Hs Hg. unfold autoConnectToPort.
  unfold mbind, M_bind, get, modify, mret, M_ret. cbn beta iota.
  by rewrite Hc, Hs, Hg.
Qed.

(** X2: when the user dismisses the chooser, [manualConnectToPort] returns
    false with the state back to "closed" and nothing opened, so that a
    second try with a port picked goes through. *)
Theorem manualConnect_cancel_then_retry (w : World) (p : nat)
    (answer : Answer) :
  canUseSerial w = true -> portState w = closed ->
  readable (port_at w p) = None ->
  let w1 := exec (manualConnectToPort None answer) w in
  let w2 := exec (manualConnectToPort (Some p) Resolved) w1 in
  outcome (manualConnectToPort None answer) w = Returned false ∧
  portState w1 = closed ∧ portRef w1 = portRef w ∧
  calls w1 = calls w ++ [call_requestPort] ∧
  outcome (manualConnectToPort (Some p) Resolved) w1 = Returned true ∧
  portState w2 = open ∧ portRef w2 = Some p ∧ isOpen w2 = true ∧
  calls w2 = calls w1 ++ [call_requestPort; call_open p (options w)].
Proof.
  intros Hc Hs Hr w1 w2. subst w2 w1. unfold exec, outcome.
  rewrite (manualConnectToPort_closed w None answer Hc Hs). simpl.
  rewrite (manualConnectToPort_closed _ (Some p) Resolved)
    by (simpl; done).
  unfold exec. rewrite openPort_resolved by exact Hr. simpl.
  rewrite <- !app_assoc. by split_and!.
Qed.

Lemma manualConnect_cancel_then_retry_witness :
  canUseSerial mounted = true ∧ portState mounted = closed ∧
  readable (port_at mounted 0) = None ∧
  let w1 := exec (manualConnectToPort None Resolved) mounted in
  let w2 := exec (manualConnectToPort (Some 0%nat) Resolved) w1 in
  outcome (manualConnectToPort None Resolved) mounted = Returned false ∧
  portState w1 = closed ∧ portState w2 = open ∧ portRef w2 = Some 0%nat.
Proof.
  pose proof (manualConnect_cancel_then_retry mounted 0 Resolved
                eq_refl eq_refl eq_refl)
    as (H1 & H2 & _ & _ & _ & H6 & H7 & _).
  split; [reflexivity|]. split; [reflexivity|]. split; [reflexivity|].
  split; [exact H1|]. split; [exact H2|]. split; [exact H6 | exact H7].
Defined.




(** X4: [autoConnectToPort] with a granted port that is not open yet returns
    true whether the open resolves or is rejected, and never sets
    [hasTriedAutoconnect].  After a rejected open the state is "closed"
    and the guard of the auto-connect effect is what it was before. *)
Theorem autoConnect_with_port (w : World) (p : nat) (rest : list nat)
    (answer : Answer) :
  canUseSerial w = true -> portState w = closed -> granted w = p :: rest ->
  readable (port_at w p) = None ->
  let w1 := exec (autoConnectToPort answer) w in
  outcome (autoConnectToPort answer) w = Returned true ∧
  hasTriedAutoconnect w1 = hasTriedAutoconnect w ∧
  calls w1 = calls w ++ [call_getPorts; call_open p (options w)] ∧
  (answer = Resolved ->
   portState w1 = open ∧ portRef w1 = Some p ∧ isOpen w1 = true) ∧
  (answer ≠ Resolved ->
   portState w1 = closed ∧ portRef w1 = portRef w ∧ isOpen w1 = false ∧
   autoconnect_guard w1 = autoconnect_guard w).
Proof.
  intros Hc Hs Hg Hr w1. subst w1. unfold exec, outcome.
  rewrite (autoConnectToPort_closed w p rest answer Hc Hs Hg).
  destruct answer as [|e].
  - rewrite openPort_resolved by exact Hr. simpl.
    rewrite <- app_assoc. by split_and!.
  - rewrite openPort_rejected by exact Hr. simpl.
    rewrite <- app_assoc. split_and!; try done.
    intros _. unfold autoconnect_guard. simpl. by rewrite Hs.
Qed.

Lemma autoConnect_with_port_witness :
  canUseSerial mounted = true ∧ portState mounted = closed ∧
  granted mounted = [0%nat] ∧ readable (port_at mounted 0) = None ∧
  let w1 := exec (autoConnectToPort (Rejected "busy")) mounted in
  outcome (autoConnectToPort (Rejected "busy")) mounted = Returned true ∧
  hasTriedAutoconnect w1 = false ∧ portState w1 = closed ∧
  autoconnect_guard w1 = true.
Proof.
  pose proof (autoConnect_with_port mounted 0 [] (Rejected "busy")
                eq_refl eq_refl eq_refl eq_refl)
    as (Hret & Hflag & _ & _ & Hrej).
  assert (Hne : Rejected "busy" ≠ Resolved) by discriminate.
  destruct (Hrej Hne) as (Hst & _ & _ & Hguard).
  split; [reflexivity|]. split; [reflexivity|]. split; [reflexivity|].
  split; [reflexivity|]. split; [exact Hret|]. split; [exact Hflag|].
  split; [exact Hst | exact Hguard].
Defined.

(** ** Opening and closing *)

Lemma openPort_captured_latest (w : World) (newPort : option nat)
    (answer : Answer) :
  openPort newPort answer w = openPort_captured (options w) newPort answer w.
Proof. by destruct newPort. Qed.




(** X6: called without a port, or with a port that is not open, the
    functions throw their error and leave everything as it was. *)
Theorem calls_without_open_port (w : World) (answer : Answer) :
  openPort None answer w = (Thrown NoPortSelected, w) ∧
  (portRef w = None ->
   closePort answer w = (Thrown NoPortSelected, w) ∧
   startReading w = (Thrown ReadNoPort, w) ∧
   stopReading w = (Thrown ReadNoPort, w)) ∧
  (∀ p, portRef w = Some p -> readable (port_at w p) = None ->
   closePort answer w = (Thrown NotOpen, w) ∧
   startReading w = (Thrown ReadNotOpen, w) ∧
   stopReading w = (Thrown ReadNotOpen, w)).
Proof.
  split; [done|]. split.
  - intros Hp. unfold closePort, startReading, stopReading; run_async.
    by rewrite Hp.
  - intros p Hp Hr. unfold closePort, startReading, stopReading; run_async.
    by rewrite Hp, Hr.
Qed.

Lemma calls_without_open_port_witness :
  let w := run mounted [do_init_effect] in
  portRef mounted = None ∧
  closePort Resolved mounted = (Thrown NoPortSelected, mounted) ∧
  portRef w = Some 0%nat ∧ readable (port_at w 0) = None ∧
  startReading w = (Thrown ReadNotOpen, w).
Proof.
  intros w.
  pose proof (calls_without_open_port mounted Resolved) as (_ & Hnone & _).
  pose proof (calls_without_open_port w Resolved) as (_ & _ & Hsome).
  split; [reflexivity|]. split; [exact (proj1 (Hnone eq_refl))|].
  split; [reflexivity|]. split; [reflexivity|].
  exact (proj1 (proj2 (Hsome 0%nat eq_refl eq_refl))).
Defined.

(** X7: when the platform rejects [close], [closePort] throws the reason
    and the session stays as it was: the port keeps its streams and
    [isOpen] is not touched. *)
Theorem closePort_rejected (w : World) (p : nat) (s : Stream) (e : string) :
  portRef w = Some p -> readable (port_at w p) = Some s ->
  locked s = false ->
  let w1 := exec (closePort (Rejected e)) w in
  outcome (closePort (Rejected e)) w = Thrown e ∧
  calls w1 = calls w ++ [call_close p] ∧
  heap w1 = heap w ∧ isOpen w1 = isOpen w ∧ portState w1 = portState w ∧
  portRef w1 = portRef w.
Proof.
  intros Hp Hr Hl w1. subst w1. unfold closePort; run_async.
  by rewrite Hp, Hr, Hl.
Qed.

Lemma closePort_rejected_witness :
  portRef opened = Some 0%nat ∧
  readable (port_at opened 0) = Some unlocked ∧
  let w1 := exec (closePort (Rejected "lost")) opened in
  outcome (closePort (Rejected "lost")) opened = Thrown "lost" ∧
  heap w1 = heap opened ∧ isOpen w1 = true.
Proof.
  pose proof (closePort_rejected opened 0 unlocked "lost"
                eq_refl eq_refl eq_refl) as (H1 & _ & H3 & H4 & _).
  split; [reflexivity|]. split; [reflexivity|].
  split; [exact H1|]. split; [exact H3 | exact H4].
Defined.

(** What a resolved open and a resolved close leave behind. *)
Lemma openPort_resolved_fields (w : World) (p : nat) :
  readable (port_at w p) = None ->
  let w' := exec (openPort (Some p) Resolved) w in
  calls w' = calls w ++ [call_open p (options w)] ∧
  readable (port_at w' p) = Some unlocked ∧
  portRef w' = Some p ∧ isOpen w' = true ∧ portState w' = open ∧
  options w' = options w.
Proof.
  intros Hr w'. subst w'. unfold exec. rewrite (openPort_resolved _ _ Hr).
  cbn [snd]. split_and!; try reflexivity. apply port_at_platform_opened.
Qed.

Lemma closePort_resolved_fields (w : World) (p : nat) (s : Stream) :
  portRef w = Some p -> readable (port_at w p) = Some s ->
  locked s = false ->
  let w' := exec (closePort Resolved) w in
  calls w' = calls w ++ [call_close p] ∧
  readable (port_at w' p) = None ∧
  portRef w' = Some p ∧ options w' = options w.
Proof.
  intros Hp Hr Hl w'. subst w'. unfold exec.
  rewrite (closePort_unlocked _ _ _ Hp Hr Hl). cbn [snd].
  split_and!; try reflexivity; [|exact Hp].
  unfold platform_closed.
  change (port_at (set_isOpen false ?x) p) with (port_at x p).
  by rewrite port_at_update_port_eq.
Qed.

(** X8: a port closed by [closePort] can be opened again by [openPort]:
    open, close, open makes these three calls and ends with the port
    open and held. *)
Theorem reopen_after_close (w : World) (p : nat) :
  readable (port_at w p) = None ->
  let w3 := run w [do_openPort (Some p) Resolved; do_closePort Resolved;
                   do_openPort (Some p) Resolved] in
  calls w3 = calls w ++ [call_open p (options w); call_close p;
                         call_open p (options w)] ∧
  readable (port_at w3 p) = Some unlocked ∧
  portRef w3 = Some p ∧ isOpen w3 = true ∧ portState w3 = open.
Proof.
  intros Hr w3. subst w3. cbn [run foldl step].
  destruct (openPort_resolved_fields w p Hr) as (Hc1 & Hr1 & Hp1 & _ & _ & Ho1).
  set (w1 := exec (openPort (Some p) Resolved) w) in *. clearbody w1.
  destruct (closePort_resolved_fields w1 p unlocked Hp1 Hr1 eq_refl)
    as (Hc2 & Hr2 & _ & Ho2).
  set (w2 := exec (closePort Resolved) w1) in *. clearbody w2.
  destruct (openPort_resolved_fields w2 p Hr2)
    as (Hc3 & Hr3 & Hp3 & Hi3 & Hs3 & _).
  set (w3 := exec (openPort (Some p) Resolved) w2) in *. clearbody w3.
  split_and!; try assumption.
  rewrite Hc3, Hc2, Hc1, Ho2, Ho1. by rewrite <- !app_assoc.
Qed.

Lemma reopen_after_close_witness :
  readable (port_at mounted 0) = None ∧
  let w3 := run mounted [do_openPort (Some 0%nat) Resolved;
                         do_closePort Resolved;
                         do_openPort (Some 0%nat) Resolved] in
  readable (port_at w3 0) = Some unlocked ∧ isOpen w3 = true.
Proof.
  pose proof (reopen_after_close mounted 0 eq_refl) as (_ & H2 & _ & H4 & _).
  split; [reflexivity|]. split; [exact H2 | exact H4].
Defined.

(** ** Signals *)

Lemma signals_effect_without_handle (w : World) :
  (portRef w = None ∨
   ∃ p, portRef w = Some p ∧ readable (port_at w p) = None) ->
  signals_effect w = w.
Proof.
  intros [H | (p & Hp & Hr)]; unfold signals_effect.
  - by rewrite H.
  - by rewrite Hp, Hr.
Qed.

(** X9: while no port with a readable stream is held, a change of an output
    signal is stored and nothing is sent; and opening a port afterwards
    sends nothing either: the only call is [open]. *)
Theorem output_change_without_port (w : World) (v : bool) (p : nat) :
  (portRef w = None ∨
   ∃ q, portRef w = Some q ∧ readable (port_at w q) = None) ->
  readable (port_at w p) = None ->
  (breakSignal (outputs (setBreak v w)) = v ∧
   calls (setBreak v w) = calls w) ∧
  (requestToSend (outputs (setRequestToSend v w)) = v ∧
   calls (setRequestToSend v w) = calls w) ∧
  (dataTerminalReady (outputs (setDataTerminalReady v w)) = v ∧
   calls (setDataTerminalReady v w) = calls w ∧
   calls (exec (openPort (Some p) Resolved) (setDataTerminalReady v w))
   = calls w ++ [call_open p (options w)]).
Proof.
  intros Hno Hr.
  assert (Hset : ∀ o, set_output o w = set_outputs o w).
  { intros o. unfold set_output. apply signals_effect_without_handle.
    destruct Hno as [H | (q & Hq & Hrq)]; [by left | right; by exists q]. }
  unfold setBreak, setRequestToSend, setDataTerminalReady.
  split_and!.
  - destruct (Bool.eqb_spec v (breakSignal (outputs w))); [done|].
    by rewrite Hset.
  - destruct (Bool.eqb v (breakSignal (outputs w))); [done|].
    by rewrite Hset.
  - destruct (Bool.eqb_spec v (requestToSend (outputs w))); [done|].
    by rewrite Hset.
  - destruct (Bool.eqb v (requestToSend (outputs w))); [done|].
    by rewrite Hset.
  - destruct (Bool.eqb_spec v (dataTerminalReady (outputs w))); [done|].
    by rewrite Hset.
  - destruct (Bool.eqb v (dataTerminalReady (outputs w))); [done|].
    by rewrite Hset.
  - unfold exec.
    destruct (Bool.eqb v (dataTerminalReady (outputs w))).
    + by rewrite (openPort_resolved _ _ Hr).
    + rewrite Hset. by rewrite openPort_resolved by exact Hr.
Qed.

Lemma output_change_without_port_witness :
  (portRef mounted = None ∨
   ∃ q, portRef mounted = Some q ∧ readable (port_at mounted q) = None) ∧
  readable (port_at mounted 0) = None ∧
  dataTerminalReady (outputs (setDataTerminalReady true mounted)) = true ∧
  calls (exec (openPort (Some 0%nat) Resolved)
           (setDataTerminalReady true mounted))
  = [call_open 0 default_options].
Proof.
  assert (Hno : portRef mounted = None ∨
                ∃ q, portRef mounted = Some q ∧
                     readable (port_at mounted q) = None)
    by (left; reflexivity).
  pose proof (output_change_without_port mounted true 0 Hno eq_refl)
    as (_ & _ & Hv & _ & Hcalls).
  split; [exact Hno|]. split; [reflexivity|].
  split; [exact Hv | exact Hcalls].
Defined.

(** X10: one tick of the poller: with a readable port held, [getSignals] is
    asked once and the four input cells become what it answered; with no
    such port nothing is asked and nothing changes. *)
Theorem poll_tick (w : World) (signals : InputSignals) :
  (∀ p s, portRef w = Some p -> readable (port_at w p) = Some s ->
     inputs (poll signals w) = signals ∧
     calls (poll signals w) = calls w ++ [call_getSignals p] ∧
     outputs (poll signals w) = outputs w ∧
     heap (poll signals w) = heap w) ∧
  ((portRef w = None ∨
    ∃ p, portRef w = Some p ∧ readable (port_at w p) = None) ->
   poll signals w = w).
Proof.
  assert (Hch : ∀ a b, changed a b = a).
  { intros a b. unfold changed. by destruct (Bool.eqb_spec a b). }
  split.
  - intros p s Hp Hr.
    assert (Heq : poll signals w
                  = set_inputs signals (log_call (call_getSignals p) w)).
    { unfold poll. rewrite Hp, Hr, !Hch. by destruct signals. }
    rewrite Heq. by split_and!.
  - intros [H | (p & Hp & Hr)]; unfold poll; [by rewrite H|].
    by rewrite Hp, Hr.
Qed.

Lemma poll_tick_witness :
  let signals := {| clearToSend := true; dataCarrierDetect := false;
                    dataSetReady := true; ringIndicator := false |} in
  portRef opened = Some 0%nat ∧
  readable (port_at opened 0) = Some unlocked ∧
  inputs (poll signals opened) = signals ∧
  poll signals mounted = mounted.
Proof.
  intros signals.
  pose proof (poll_tick opened signals) as [Hyes _].
  pose proof (poll_tick mounted signals) as [_ Hno].
  split; [reflexivity|]. split; [reflexivity|].
  split; [exact (proj1 (Hyes 0%nat unlocked eq_refl eq_refl))|].
  apply Hno. left. reflexivity.
Defined.

(** ** The start-up query *)

Lemma step_initialized (w : World) (a : Action) :
  initialized (webSerialContext w) = true ->
  initialized (webSerialContext (step w a)) = true.
Proof. intros H; destruct a; by_cases_of_step. Qed.

Lemma run_initialized (w : World) (l : list Action) :
  initialized (webSerialContext w) = true ->
  initialized (webSerialContext (run w l)) = true.
Proof.
  intros H. induction l as [|a l IH] using rev_ind; [done|].
  rewrite run_snoc. by apply step_initialized.
Qed.

(** X11: the start-up effect queries the granted ports once: it caches them
    and holds the first, and whatever happens afterwards, running the
    effect again changes nothing. *)
Theorem init_effect_once (w : World) (l : list Action) :
  let w1 := init_effect w in
  init_effect (run w1 l) = run w1 l ∧
  (initialized (webSerialContext w) = false ->
   calls w1 = calls w ++ [call_getPorts] ∧
   match granted w with
   | first :: _ =>
       portRef w1 = Some first ∧ ports w1 = granted w ∧
       context_ports (webSerialContext w1) = granted w
   | [] =>
       portRef w1 = portRef w ∧ ports w1 = ports w ∧
       context_ports (webSerialContext w1)
       = context_ports (webSerialContext w)
   end).
Proof.
  intros w1.
  assert (Hi : initialized (webSerialContext w1) = true).
  { subst w1. unfold init_effect.
    destruct (initialized (webSerialContext w)) eqn:E; [done|].
    simpl. by destruct (granted w). }
  split.
  - unfold init_effect at 1. by rewrite (run_initialized _ l Hi).
  - intros Hn. subst w1. unfold init_effect. rewrite Hn. simpl.
    by destruct (granted w).
Qed.

Lemma init_effect_once_witness :
  let w1 := init_effect mounted in
  initialized (webSerialContext mounted) = false ∧
  init_effect (run w1 [platform_grants [1%nat; 0%nat]])
  = run w1 [platform_grants [1%nat; 0%nat]] ∧
  portRef w1 = Some 0%nat ∧ ports w1 = [0%nat].
Proof.
  pose proof (init_effect_once mounted [platform_grants [1%nat; 0%nat]])
    as [Hagain Hfirst].
  destruct (Hfirst eq_refl) as (_ & Hp & Hports & _).
  split; [reflexivity|]. split; [exact Hagain|].
  split; [exact Hp | exact Hports].
Defined.

(** ** Writing *)

(** X12: with a port held and open, [write] hands the platform the UTF-8
    bytes of the message followed by CR LF, throws what the platform
    rejects with, and in both cases leaves the writable stream unlocked:
    the next [write] goes through. *)
Theorem write_sends_and_releases (w : World) (p : nat)
    (message message' : list N) (answer : Answer) :
  portRef w = Some p -> writable (port_at w p) = Some unlocked ->
  let w1 := exec (write message answer) w in
  outcome (write message answer) w
  = match answer with
    | Resolved => Returned tt
    | Rejected e => Thrown e
    end ∧
  calls w1 = calls w ++ [call_write p (Utf8.encode (message ++ [13; 10]))] ∧
  writable (port_at w1 p) = Some unlocked ∧
  calls (exec (write message' Resolved) w1)
  = calls w1 ++ [call_write p (Utf8.encode (message' ++ [13; 10]))].
Proof.
  intros Hp Hw w1.
  assert (H1 : portRef w1 = Some p ∧ writable (port_at w1 p) = Some unlocked
               ∧ calls w1 = calls w
                   ++ [call_write p (Utf8.encode (message ++ [13; 10]))]
               ∧ outcome (write message answer) w
                 = match answer with
                   | Resolved => Returned tt
                   | Rejected e => Thrown e
                   end).
  { subst w1. unfold write; run_async. rewrite Hp, Hw. simpl.
    destruct answer; simpl; split_and!; try done;
      unfold port_at, update_port; simpl;
      by rewrite lookup_total_insert_eq. }
  destruct H1 as (Hp1 & Hw1 & Hc1 & Ho1).
  split_and!; try assumption.
  clearbody w1. by apply write_with_handle.
Qed.

Lemma write_sends_and_releases_witness :
  portRef opened = Some 0%nat ∧
  writable (port_at opened 0) = Some unlocked ∧
  let w1 := exec (write (js "ping") (Rejected "gone")) opened in
  outcome (write (js "ping") (Rejected "gone")) opened = Thrown "gone" ∧
  calls w1 = calls opened
             ++ [call_write 0 (String.list_byte_of_string "ping"
                                 ++ [x0d; x0a])] ∧
  writable (port_at w1 0) = Some unlocked.
Proof.
  pose proof (write_sends_and_releases opened 0 (js "ping") [] (Rejected "gone")
                eq_refl eq_refl) as (H1 & H2 & H3 & _).
  split; [reflexivity|]. split; [reflexivity|].
  split; [exact H1|]. split; [exact H2 | exact H3].
Defined.

(** ** Locks *)

Ltac heap_cases :=
  repeat (unfold port_at, update_port, platform_opened, platform_closed,
            releaseLock, log_call in *;
          simpl in *;
          first [ rewrite lookup_total_insert
                | rewrite lookup_insert
                | rewrite lookup_delete ];
          case_decide; simplify_eq/=);
  repeat case_match; simplify_eq/=.

Lemma step_writable_unlocked (w : World) (a : Action) :
  (∀ q s, writable (port_at w q) = Some s -> locked s = false) ->
  ∀ q s, writable (port_at (step w a) q) = Some s -> locked s = false.
Proof.
  intros Hw q s. destruct a; by_cases_of_step;
    try (by apply Hw);
    heap_cases; eauto;
    try (intros [= <-]; reflexivity);
    try (intros Hs; by apply (Hw q s)).
Qed.

(** X13: no step of a session leaves a writable stream locked: [write]
    releases its writer on every path. *)
Theorem writable_never_left_locked (w : World) (l : list Action) :
  (∀ q s, writable (port_at w q) = Some s -> locked s = false) ->
  ∀ q s, writable (port_at (run w l) q) = Some s -> locked s = false.
Proof.
  intros Hw. induction l as [|a l IH] using rev_ind; [exact Hw|].
  rewrite run_snoc. by apply step_writable_unlocked.
Qed.

Lemma writable_never_left_locked_witness :
  (∀ q s, writable (port_at mounted q) = Some s -> locked s = false) ∧
  let w := run mounted [do_init_effect; do_autoconnect_effect Resolved;
                        do_write (js "ping") (Rejected "gone")] in
  writable (port_at w 0) = Some unlocked ∧
  ∀ s, writable (port_at w 0) = Some s -> locked s = false.
Proof.
  assert (H0 : ∀ q s, writable (port_at mounted q) = Some s ->
                      locked s = false).
  { intros q s. unfold port_at, mounted, mount. simpl.
    rewrite lookup_total_singleton. case_decide; simpl; discriminate. }
  split; [exact H0|]. split; [reflexivity|].
  intros s.
  exact (writable_never_left_locked mounted
           [do_init_effect; do_autoconnect_effect Resolved;
            do_write (js "ping") (Rejected "gone")] H0 0%nat s).
Defined.

Lemma step_locked_reading (w : World) (a : Action) :
  (∀ q s, readable (port_at w q) = Some s -> locked s = true ->
          is_Some (loops w !! q)) ->
  ∀ q s, readable (port_at (step w a) q) = Some s -> locked s = true ->
         is_Some (loops (step w a) !! q).
Proof.
  intros Hw q s. destruct a; by_cases_of_step;
    try (by apply Hw);
    heap_cases; eauto;
    try (intros [= <-]; done);
    try (intros Hs Hl; by apply (Hw q s));
    try (intros Hs; congruence).
Qed.

(** X14: whenever [closePort] throws "Port is locked", a read loop is running
    on the port held: a lock on a readable stream is only ever taken by
    [startReading] and is given back when its loop ends. *)
Theorem port_locked_means_reading (w : World) (l : list Action) :
  (∀ q s, readable (port_at w q) = Some s -> locked s = true ->
          is_Some (loops w !! q)) ->
  let w' := run w l in
  outcome (closePort Resolved) w' = Thrown PortLocked ->
  ∃ p, portRef w' = Some p ∧ is_Some (loops w' !! p).
Proof.
  intros Hw w'.
  assert (Hinv : ∀ q s, readable (port_at w' q) = Some s ->
                        locked s = true -> is_Some (loops w' !! q)).
  { subst w'. induction l as [|a l IH] using rev_ind; [exact Hw|].
    rewrite run_snoc. by apply step_locked_reading. }
  clearbody w'. unfold closePort; run_async.
  destruct (portRef w') as [p|] eqn:Hp; [|discriminate].
  destruct (readable (port_at w' p)) as [s|] eqn:Hr; [|discriminate].
  destruct (locked s) eqn:Hl; [|discriminate].
  intros _. exists p. split; [done|]. by apply (Hinv p s).
Qed.

Lemma port_locked_means_reading_witness :
  (∀ q s, readable (port_at mounted q) = Some s -> locked s = true ->
          is_Some (loops mounted !! q)) ∧
  let w' := run mounted [do_init_effect; do_autoconnect_effect Resolved;
                         do_startReading; do_stopReading] in
  outcome (closePort Resolved) w' = Thrown PortLocked ∧
  ∃ p, portRef w' = Some p ∧ is_Some (loops w' !! p).
Proof.
  assert (H0 : ∀ q s, readable (port_at mounted q) = Some s ->
                      locked s = true -> is_Some (loops mounted !! q)).
  { intros q s. unfold port_at, mounted, mount. simpl.
    rewrite lookup_total_singleton. case_decide; simpl; discriminate. }
  split; [exact H0|]. split; [reflexivity|].
  exact (port_locked_means_reading mounted
           [do_init_effect; do_autoconnect_effect Resolved;
            do_startReading; do_stopReading] H0 eq_refl).
Defined.

(** ** The read loop, from start to stop *)

Lemma startReading_unlocked (w : World) (p : nat) (s : Stream) :
  portRef w = Some p -> readable (port_at w p) = Some s ->
  locked s = false ->
  startReading w
  = (Returned tt,
     set_loops (<[p := []]> (loops w))
       (update_port p (set_readable (Some {| locked := true |}))
          (update_port p (set_cancelRequested false)
             (set_isReading true w)))).
Proof.
  intros Hp Hr Hl. unfold startReading; run_async. by rewrite Hp, Hr, Hl.
Qed.

Lemma startReading_locked (w : World) (p : nat) (s : Stream) :
  portRef w = Some p -> readable (port_at w p) = Some s ->
  locked s = true ->
  startReading w
  = (Thrown StreamLocked,
     update_port p (set_cancelRequested false) (set_isReading true w)).
Proof.
  intros Hp Hr Hl. unfold startReading; run_async. by rewrite Hp, Hr, Hl.
Qed.

(** What the reads of a running loop leave behind while nobody asks it
    to stop. *)
Lemma run_reads_state (reads : list ReadResult) (w : World) (p : nat)
    (acc : list N) :
  loops w !! p = Some acc -> cancelRequested (port_at w p) = false ->
  let w' := run w (map (do_read_resolved p) reads) in
  loops w' !! p = Some (read_buffer acc reads) ∧
  onData w' = onData w ++ read_loop acc reads ∧
  heap w' = heap w ∧ portRef w' = portRef w ∧ calls w' = calls w.
Proof.
  revert w acc. induction reads as [|r reads IH]; intros w acc Hl Hc.
  - simpl. by rewrite app_nil_r.
  - cbn [map run foldl read_loop read_buffer].
    fold (run (step w (do_read_resolved p r))
            (map (do_read_resolved p) reads)).
    assert (Hstep : ∃ w1, step w (do_read_resolved p r) = w1 ∧
              loops w1 !! p = Some (snd (on_read acc r)) ∧
              heap w1 = heap w ∧ portRef w1 = portRef w ∧
              calls w1 = calls w ∧
              onData w1 = onData w ++ match fst (on_read acc r) with
                                      | Some m => [m]
                                      | None => []
                                      end).
    { eexists; split; [reflexivity|]. cbn [step]. unfold read_resolved.
      rewrite Hl. destruct (on_read acc r) as [[m|] acc'].
      - change (port_at (set_onData (onData w ++ [m]) w) p)
          with (port_at w p).
        rewrite Hc. simpl. rewrite lookup_insert_eq. by split_and!.
      - rewrite Hc. simpl. rewrite lookup_insert_eq, app_nil_r.
        by split_and!. }
    destruct Hstep as (w1 & -> & Hl1 & Hh1 & Hp1 & Hc1 & Hd1).
    assert (Hcancel : cancelRequested (port_at w1 p) = false)
      by (unfold port_at in *; by rewrite Hh1).
    destruct (IH w1 _ Hl1 Hcancel) as (IH1 & IH2 & IH3 & IH4 & IH5).
    clear IH. split_and!; [exact IH1 | | congruence..].
    rewrite IH2, Hd1, <- app_assoc. f_equal.
    by destruct (on_read acc r) as [[m|] acc'].
Qed.

Lemma read_loop_conserves (acc : list N) (reads : list ReadResult) :
  concat (read_loop acc reads) ++ read_buffer acc reads
  = acc ++ concat (map (fun r => Utf8.decode (value r)) reads).
Proof.
  revert acc. induction reads as [|r reads IH]; intros acc.
  - simpl. by rewrite app_nil_r.
  - cbn [read_loop read_buffer map concat]. unfold on_read at 1 2.
    destruct (done r || endsWith (acc ++ Utf8.decode (value r)) terminator).
    + cbn [snd concat]. rewrite <- (app_assoc (acc ++ _)), IH.
      cbn [app]. by rewrite <- app_assoc.
    + cbn [snd]. rewrite IH. by rewrite <- app_assoc.
Qed.

(** X15: the framing neither loses nor repeats text: while the loop runs, the
    messages handed to [onData] followed by what is still buffered are
    the buffer it started from followed by the text of every read. *)
Theorem read_loop_keeps_text (w : World) (p : nat) (acc : list N)
    (reads : list ReadResult) :
  loops w !! p = Some acc -> cancelRequested (port_at w p) = false ->
  let w' := run w (map (do_read_resolved p) reads) in
  ∃ msgs buffer,
    onData w' = onData w ++ msgs ∧ loops w' !! p = Some buffer ∧
    concat msgs ++ buffer
    = acc ++ concat (map (fun r => Utf8.decode (value r)) reads).
Proof.
  intros Hl Hc w'.
  destruct (run_reads_state reads w p acc Hl Hc) as (H1 & H2 & _).
  exists (read_loop acc reads), (read_buffer acc reads).
  split_and!; [exact H2 | exact H1 | apply read_loop_conserves].
Qed.

Lemma read_loop_keeps_text_witness :
  let reads := [chunk_read (String.list_byte_of_string "ch> x");
                end_read;
                chunk_read (String.list_byte_of_string "yz")] in
  loops reading !! 0%nat = Some [] ∧
  cancelRequested (port_at reading 0) = false ∧
  let w' := run reading (map (do_read_resolved 0) reads) in
  ∃ msgs buffer,
    onData w' = onData reading ++ msgs ∧ loops w' !! 0%nat = Some buffer ∧
    concat msgs ++ buffer = js "ch> xyz".
Proof.
  intros reads. split; [reflexivity|]. split; [reflexivity|].
  exact (read_loop_keeps_text reading 0 [] reads eq_refl eq_refl).
Defined.

Lemma read_loop_ends (acc : list N) (reads : list ReadResult) :
  Forall (fun r => done r = false) reads ->
  Forall (fun m => terminator `suffix_of` m) (read_loop acc reads) ∧
  (reads ≠ [] -> ¬ terminator `suffix_of` read_buffer acc reads).
Proof.
  intros Hd. revert acc. induction Hd as [|r reads Hr _ IH]; intros acc.
  - split; [constructor | done].
  - cbn [read_loop read_buffer]. unfold on_read at 1 2. rewrite Hr.
    cbn [orb]. unfold endsWith.
    destruct (IH []) as [IHm IHb]. destruct (IH (acc ++ Utf8.decode (value r)))
      as [IHm' IHb'].
    case_bool_decide as Hs; cbn [snd].
    + split; [by constructor|]. intros _.
      destruct reads as [|r' reads]; [|apply IHb; discriminate].
      simpl. intros Hnil%suffix_nil_inv. discriminate Hnil.
    + split; [exact IHm'|]. intros _.
      destruct reads as [|r' reads]; [exact Hs | apply IHb'; discriminate].
Qed.

(** X16: until the stream ends, every message handed to [onData] ends with
    the prompt, and after each read what stays buffered does not. *)
Theorem messages_end_with_prompt (w : World) (p : nat) (acc : list N)
    (reads : list ReadResult) :
  loops w !! p = Some acc -> cancelRequested (port_at w p) = false ->
  Forall (fun r => done r = false) reads -> reads ≠ [] ->
  let w' := run w (map (do_read_resolved p) reads) in
  ∃ msgs buffer,
    onData w' = onData w ++ msgs ∧ loops w' !! p = Some buffer ∧
    Forall (fun m => terminator `suffix_of` m) msgs ∧
    ¬ terminator `suffix_of` buffer.
Proof.
  intros Hl Hc Hd Hne w'.
  destruct (run_reads_state reads w p acc Hl Hc) as (H1 & H2 & _).
  destruct (read_loop_ends acc reads Hd) as [Hm Hb].
  exists (read_loop acc reads), (read_buffer acc reads).
  split_and!; [exact H2 | exact H1 | exact Hm | by apply Hb].
Qed.

Lemma messages_end_with_prompt_witness :
  let reads := map chunk_read (map String.list_byte_of_string
                 ["ab"; "c"; "h> "; "xch> "; "y"]%string) in
  loops reading !! 0%nat = Some [] ∧
  cancelRequested (port_at reading 0) = false ∧
  Forall (fun r => done r = false) reads ∧ reads ≠ [] ∧
  let w' := run reading (map (do_read_resolved 0) reads) in
  ∃ msgs buffer,
    onData w' = onData reading ++ msgs ∧ loops w' !! 0%nat = Some buffer ∧
    Forall (fun m => terminator `suffix_of` m) msgs ∧
    ¬ terminator `suffix_of` buffer.
Proof.
  intros reads.
  assert (Hd : Forall (fun r => done r = false) reads)
    by (repeat constructor).
  assert (Hne : reads ≠ []) by discriminate.
  split; [reflexivity|]. split; [reflexivity|].
  split; [exact Hd|]. split; [exact Hne|].
  exact (messages_end_with_prompt reading 0 [] reads eq_refl eq_refl Hd Hne).
Defined.

Lemma stopReading_fields (w : World) (p : nat) (s : Stream) :
  portRef w = Some p -> readable (port_at w p) = Some s ->
  let w1 := exec stopReading w in
  outcome stopReading w = Returned tt ∧
  cancelRequested (port_at w1 p) = true ∧
  readable (port_at w1 p) = Some s ∧
  portRef w1 = Some p ∧ loops w1 = loops w ∧ onData w1 = onData w ∧
  calls w1 = calls w ∧ isReading w1 = false.
Proof.
  intros Hp Hr w1. subst w1. unfold exec, outcome.
  rewrite (stopReading_sets_flag _ _ _ Hp Hr). cbn [fst snd].
  rewrite port_at_update_port_eq. by split_and!.
Qed.

Lemma read_resolved_exit (w : World) (p : nat) (s : Stream) (acc : list N)
    (r : ReadResult) :
  loops w !! p = Some acc -> cancelRequested (port_at w p) = true ->
  readable (port_at w p) = Some s ->
  let w2 := read_resolved p r w in
  loops w2 !! p = None ∧ readable (port_at w2 p) = Some unlocked ∧
  onData w2 = onData w ++ match fst (on_read acc r) with
                          | Some m => [m]
                          | None => []
                          end ∧
  portRef w2 = portRef w ∧ calls w2 = calls w ∧
  cancelRequested (port_at w2 p) = true.
Proof.
  intros Hl Hc Hr w2. subst w2. unfold read_resolved. rewrite Hl.
  assert (Hexit : ∀ w0, heap w0 = heap w -> loops w0 = loops w ->
            loops (loop_exit p w0) !! p = None ∧
            readable (port_at (loop_exit p w0) p) = Some unlocked ∧
            onData (loop_exit p w0) = onData w0 ∧
            portRef (loop_exit p w0) = portRef w0 ∧
            calls (loop_exit p w0) = calls w0 ∧
            cancelRequested (port_at (loop_exit p w0) p) = true).
  { intros w0 Hh Hlo. unfold loop_exit, releaseLock.
    change (port_at (set_loops ?l ?x) p) with (port_at x p).
    rewrite port_at_update_port_eq.
    assert (Hpa : port_at w0 p = port_at w p)
      by (unfold port_at; by rewrite Hh).
    rewrite Hpa, Hr. simpl. rewrite lookup_delete_eq. by split_and!. }
  destruct (on_read acc r) as [[m|] acc']; cbn [fst].
  - change (port_at (set_onData (onData w ++ [m]) w) p) with (port_at w p).
    rewrite Hc.
    destruct (Hexit (set_onData (onData w ++ [m]) w) eq_refl eq_refl)
      as (H1 & H2 & H3 & H4 & H5 & H6).
    by split_and!.
  - rewrite Hc. destruct (Hexit w eq_refl eq_refl)
      as (H1 & H2 & H3 & H4 & H5 & H6).
    rewrite app_nil_r. by split_and!.
Qed.

(** X17: however the loop ends, it gives the lock back, and reading can be
    started again with an empty buffer: this holds after [stopReading]
    and one more read, and after a read that fails. *)
Theorem loop_end_frees_stream (w : World) (p : nat) (s : Stream)
    (acc : list N) (r : ReadResult) :
  portRef w = Some p -> readable (port_at w p) = Some s ->
  loops w !! p = Some acc ->
  let stopped := read_resolved p r (exec stopReading w) in
  let failed := read_rejected p w in
  (loops stopped !! p = None ∧
   readable (port_at stopped p) = Some unlocked ∧
   outcome startReading stopped = Returned tt ∧
   loops (exec startReading stopped) !! p = Some [] ∧
   cancelRequested (port_at (exec startReading stopped) p) = false) ∧
  (loops failed !! p = None ∧
   readable (port_at failed p) = Some unlocked ∧
   outcome startReading failed = Returned tt).
Proof.
  intros Hp Hr Hl stopped failed.
  assert (Hrestart : ∀ w0, portRef w0 = Some p ->
            readable (port_at w0 p) = Some unlocked ->
            outcome startReading w0 = Returned tt ∧
            loops (exec startReading w0) !! p = Some [] ∧
            cancelRequested (port_at (exec startReading w0) p) = false).
  { intros w0 Hp0 Hr0. unfold outcome, exec.
    rewrite (startReading_unlocked _ _ _ Hp0 Hr0 eq_refl). cbn [fst snd].
    split; [done|]. split; [simpl; apply lookup_insert_eq|].
    change (port_at (set_loops ?l ?x) p) with (port_at x p).
    by rewrite !port_at_update_port_eq. }
  split.
  - destruct (stopReading_fields w p s Hp Hr)
      as (_ & Hc1 & Hr1 & Hp1 & Hl1 & _).
    subst stopped. set (w1 := exec stopReading w) in *. clearbody w1.
    rewrite <- Hl1 in Hl.
    destruct (read_resolved_exit w1 p s acc r Hl Hc1 Hr1)
      as (H1 & H2 & _ & H4 & _).
    set (w2 := read_resolved p r w1) in *. clearbody w2.
    rewrite Hp1 in H4.
    destruct (Hrestart w2 H4 H2) as (H5 & H6 & H7). by split_and!.
  - subst failed. unfold read_rejected. rewrite Hl.
    assert (Hf : loops (loop_exit p w) !! p = None ∧
                 readable (port_at (loop_exit p w) p) = Some unlocked ∧
                 portRef (loop_exit p w) = Some p).
    { unfold loop_exit, releaseLock.
      change (port_at (set_loops ?l ?x) p) with (port_at x p).
      rewrite port_at_update_port_eq, Hr. simpl.
      rewrite lookup_delete_eq. by split_and!. }
    destruct Hf as (H1 & H2 & H3).
    set (w2 := loop_exit p w) in *. clearbody w2.
    destruct (Hrestart w2 H3 H2) as (H5 & _). by split_and!.
Qed.

Lemma loop_end_frees_stream_witness :
  portRef reading = Some 0%nat ∧
  readable (port_at reading 0) = Some {| locked := true |} ∧
  loops reading !! 0%nat = Some [] ∧
  let stopped := read_resolved 0 (chunk_read [x41]) (exec stopReading reading) in
  readable (port_at stopped 0) = Some unlocked ∧
  outcome startReading stopped = Returned tt ∧
  readable (port_at (read_rejected 0 reading) 0) = Some unlocked.
Proof.
  pose proof (loop_end_frees_stream reading 0 {| locked := true |} []
                (chunk_read [x41]) eq_refl eq_refl eq_refl)
    as ((_ & H2 & H3 & _) & (_ & H5 & _)).
  split; [reflexivity|]. split; [reflexivity|]. split; [reflexivity|].
  split; [exact H2|]. split; [exact H3 | exact H5].
Defined.

(** X18: the read that was under way when [stopReading] was called is still
    handled: a message it completes is handed to [onData].  Text that is
    still incomplete then is dropped with the loop, and later reads do
    nothing. *)
Theorem last_read_after_stop (w : World) (p : nat) (s : Stream)
    (acc : list N) (r r' : ReadResult) :
  portRef w = Some p -> readable (port_at w p) = Some s ->
  loops w !! p = Some acc ->
  let w2 := read_resolved p r (exec stopReading w) in
  onData w2 = onData w ++ match fst (on_read acc r) with
                          | Some m => [m]
                          | None => []
                          end ∧
  loops w2 !! p = None ∧
  read_resolved p r' w2 = w2.
Proof.
  intros Hp Hr Hl w2.
  destruct (stopReading_fields w p s Hp Hr)
    as (_ & Hc1 & Hr1 & _ & Hl1 & Hd1 & _).
  subst w2. set (w1 := exec stopReading w) in *. clearbody w1.
  rewrite <- Hl1 in Hl.
  destruct (read_resolved_exit w1 p s acc r Hl Hc1 Hr1)
    as (H1 & _ & H3 & _).
  set (w2 := read_resolved p r w1) in *. clearbody w2.
  split_and!; [by rewrite H3, Hd1 | exact H1|].
  unfold read_resolved. by rewrite H1.
Qed.

Lemma last_read_after_stop_witness :
  portRef reading = Some 0%nat ∧
  readable (port_at reading 0) = Some {| locked := true |} ∧
  loops reading !! 0%nat = Some [] ∧
  let w2 := read_resolved 0 (chunk_read (String.list_byte_of_string "ok ch> "))
              (exec stopReading reading) in
  onData w2 = [js "ok ch> "] ∧ loops w2 !! 0%nat = None ∧
  read_resolved 0 (chunk_read [x41]) w2 = w2.
Proof.
  pose proof (last_read_after_stop reading 0 {| locked := true |} []
                (chunk_read (String.list_byte_of_string "ok ch> "))
                (chunk_read [x41]) eq_refl eq_refl eq_refl)
    as (H1 & H2 & H3).
  split; [reflexivity|]. split; [reflexivity|]. split; [reflexivity|].
  split; [exact H1|]. split; [exact H2 | exact H3].
Defined.

(** X19: [startReading] called while the loop runs throws, since the stream
    is locked, but not before it has reset [cancelRequested]: a stop
    asked for just before is forgotten, and the loop goes on after its
    next read, keeping the lock. *)
Theorem startReading_forgets_stop (w : World) (p : nat) (s : Stream)
    (acc : list N) (r : ReadResult) :
  portRef w = Some p -> readable (port_at w p) = Some s ->
  locked s = true -> loops w !! p = Some acc ->
  let w1 := exec stopReading w in
  let w2 := exec startReading w1 in
  let w3 := read_resolved p r w2 in
  cancelRequested (port_at w1 p) = true ∧
  outcome startReading w1 = Thrown StreamLocked ∧
  cancelRequested (port_at w2 p) = false ∧ isReading w2 = true ∧
  is_Some (loops w3 !! p) ∧ readable (port_at w3 p) = Some s.
Proof.
  intros Hp Hr Hlk Hl w1 w2 w3.
  destruct (stopReading_fields w p s Hp Hr)
    as (_ & Hc1 & Hr1 & Hp1 & Hl1 & _).
  subst w3 w2. set (w1' := exec stopReading w) in *. subst w1.
  clearbody w1'. rewrite <- Hl1 in Hl.
  unfold outcome, exec.
  rewrite (startReading_locked _ _ _ Hp1 Hr1 Hlk). cbn [fst snd].
  set (w2 := update_port p (set_cancelRequested false)
               (set_isReading true w1')).
  assert (Hc2 : cancelRequested (port_at w2 p) = false)
    by (subst w2; by rewrite port_at_update_port_eq).
  assert (Hr2 : readable (port_at w2 p) = Some s)
    by (subst w2; by rewrite port_at_update_port_eq).
  assert (Hl2 : loops w2 !! p = Some acc) by exact Hl.
  assert (Hi2 : isReading w2 = true) by reflexivity.
  clearbody w2.
  destruct (run_reads_state [r] w2 p acc Hl2 Hc2) as (H1 & _ & H3 & _).
  cbn [map run foldl step] in H1, H3.
  split_and!; [assumption | reflexivity | assumption | assumption
              | by rewrite H1 |].
  unfold port_at in *. by rewrite H3.
Qed.

Lemma startReading_forgets_stop_witness :
  portRef reading = Some 0%nat ∧
  readable (port_at reading 0) = Some {| locked := true |} ∧
  loops reading !! 0%nat = Some [] ∧
  let w2 := exec startReading (exec stopReading reading) in
  outcome startReading (exec stopReading reading) = Thrown StreamLocked ∧
  cancelRequested (port_at w2 0) = false ∧
  is_Some (loops (read_resolved 0 (chunk_read [x41]) w2) !! 0%nat).
Proof.
  pose proof (startReading_forgets_stop reading 0 {| locked := true |} []
                (chunk_read [x41]) eq_refl eq_refl eq_refl eq_refl)
    as (_ & H2 & H3 & _ & H5 & _).
  split; [reflexivity|]. split; [reflexivity|]. split; [reflexivity|].
  split; [exact H2|]. split; [exact H3 | exact H5].
Defined.

Lemma read_loop_end_reads (acc : list N) (n : nat) :
  read_loop acc (replicate n end_read)
  = match n with
    | O => []
    | S k => acc :: replicate k []
    end ∧
  read_buffer acc (replicate n end_read)
  = match n with
    | O => acc
    | S _ => []
    end.
Proof.
  assert (Hend : ∀ a, on_read a end_read = (Some a, [])).
  { intros a. unfold on_read, end_read. simpl. by rewrite app_nil_r. }
  revert acc. induction n as [|n IH]; intros acc; [done|].
  cbn [replicate read_loop read_buffer]. rewrite Hend. cbn [snd].
  destruct (IH []) as [-> ->]. by destruct n.
Qed.

(** X20: the loop does not stop when the stream ends: the first read that
    reports the end hands over what is buffered, every further one calls
    [onData] with the empty text, and the lock stays taken. *)
Theorem end_of_stream_keeps_looping (w : World) (p : nat) (acc : list N)
    (n : nat) :
  loops w !! p = Some acc -> cancelRequested (port_at w p) = false ->
  let w' := run w (replicate (S n) (do_read_resolved p end_read)) in
  onData w' = onData w ++ acc :: replicate n [] ∧
  loops w' !! p = Some [] ∧
  heap w' = heap w.
Proof.
  intros Hl Hc w'.
  destruct (run_reads_state (replicate (S n) end_read) w p acc Hl Hc)
    as (H1 & H2 & H3 & _).
  destruct (read_loop_end_reads acc (S n)) as [Hm Hb].
  subst w'.
  replace (replicate (S n) (do_read_resolved p end_read))
    with (map (do_read_resolved p) (replicate (S n) end_read))
    by (by rewrite <- fmap_replicate).
  rewrite H1, H2, Hm, Hb, H3. by split_and!.
Qed.

Lemma end_of_stream_keeps_looping_witness :
  loops reading !! 0%nat = Some [] ∧
  cancelRequested (port_at reading 0) = false ∧
  let w' := run reading (replicate 3 (do_read_resolved 0 end_read)) in
  onData w' = [[]; []; []] ∧
  readable (port_at w' 0) = Some {| locked := true |}.
Proof.
  pose proof (end_of_stream_keeps_looping reading 0 [] 2 eq_refl eq_refl)
    as (H1 & _ & _).
  split; [reflexivity|]. split; [reflexivity|].
  split; [exact H1 | reflexivity].
Defined.

(** ** The identity string *)

Lemma hex_digits_length (fuel k : nat) (n : N) :
  n < 16 ^ N.of_nat (S k) -> (length (hex_digits fuel n) ≤ S k)%nat.
Proof.
  revert k n. induction fuel as [|fuel IH]; intros k n Hn; [simpl; lia|].
  cbn [hex_digits]. destruct (N.ltb_spec n 16) as [Hlt | Hge]; [simpl; lia|].
  rewrite length_app. cbn [length].
  destruct k as [|k].
  { change (16 ^ N.of_nat 1) with 16 in Hn. lia. }
  assert (Hq : n / 16 < 16 ^ N.of_nat (S k)).
  { apply N.Div0.div_lt_upper_bound.
    rewrite <- N.pow_succ_r'. by rewrite <- Nat2N.inj_succ. }
  specialize (IH k _ Hq). lia.
Qed.

Lemma hex_digit_range (d : N) :
  d < 16 -> (48 <= hex_digit d <= 57) ∨ (97 <= hex_digit d <= 102).
Proof.
  intros Hd. unfold hex_digit. destruct (N.ltb_spec d 10); lia.
Qed.

Lemma hex_digits_range (fuel : nat) (n : N) :
  Forall (fun c => (48 <= c <= 57) ∨ (97 <= c <= 102)) (hex_digits fuel n).
Proof.
  revert n. induction fuel as [|fuel IH]; intros n; [constructor|].
  cbn [hex_digits]. destruct (N.ltb_spec n 16) as [Hlt | Hge].
  - constructor; [by apply hex_digit_range | constructor].
  - apply Forall_app. split; [apply IH|].
    constructor; [|constructor]. apply hex_digit_range.
    apply N.mod_lt. lia.
Qed.

(** X21: for a vendor and a product id that are 16-bit numbers other than 0,
    [portInfo] gives both ids back with a display id of nine code units:
    four lowercase hexadecimal digits, a colon, four more digits. *)
Theorem portInfo_format (v p : N) :
  0 < v < 0x10000 -> 0 < p < 0x10000 ->
  ∃ i, portInfo {| usbVendorId := Some v; usbProductId := Some p |} = Some i ∧
       id_usbVendorId i = v ∧ id_usbProductId i = p ∧
       length (usbId i) = 9%nat ∧ usbId i !! 4%nat = Some 58 ∧
       Forall (fun c => (48 <= c <= 57) ∨ (97 <= c <= 102))
         (take 4 (usbId i) ++ drop 5 (usbId i)).
Proof.
  intros Hv Hp.
  assert (Hpad : ∀ n, n < 0x10000 ->
            length (padStart 4 48 (toString16 n)) = 4%nat ∧
            Forall (fun c => (48 <= c <= 57) ∨ (97 <= c <= 102))
              (padStart 4 48 (toString16 n))).
  { intros n Hn. unfold padStart, toString16.
    pose proof (hex_digits_length (S (N.to_nat (N.log2 n))) 3 n Hn) as Hlen.
    split.
    - rewrite length_app, length_replicate. lia.
    - apply Forall_app. split; [|apply hex_digits_range].
      apply Forall_replicate. left. lia. }
  destruct (Hpad v (proj2 Hv)) as [Hlv Hfv].
  destruct (Hpad p (proj2 Hp)) as [Hlp Hfp].
  eexists. split.
  - unfold portInfo. cbn [usbVendorId usbProductId truthy].
    destruct (N.eqb_spec v 0) as [->|_]; [lia|].
    destruct (N.eqb_spec p 0) as [->|_]; [lia|]. reflexivity.
  - cbn [id_usbVendorId id_usbProductId usbId].
    set (a := padStart 4 48 (toString16 v)) in *.
    set (b := padStart 4 48 (toString16 p)) in *.
    clearbody a b. change (js ":") with [58].
    split; [done|]. split; [done|]. split_and!.
    + rewrite !length_app. simpl. lia.
    + apply (list_lookup_middle a b 58). by rewrite Hlv.
    + destruct a as [|a1 [|a2 [|a3 [|a4 [|a5 a]]]]]; try discriminate Hlv.
      cbn [app take drop]. apply (Forall_app _ [a1; a2; a3; a4] b).
      by split.
Qed.

Lemma portInfo_format_witness :
  0 < 0x1d50 < 0x10000 ∧ 0 < 0x6018 < 0x10000 ∧
  ∃ i, portInfo (info the_port) = Some i ∧ usbId i = js "1d50:6018".
Proof.
  assert (Hv : 0 < 0x1d50 < 0x10000) by lia.
  assert (Hp : 0 < 0x6018 < 0x10000) by lia.
  split; [exact Hv|]. split; [exact Hp|].
  destruct (portInfo_format 0x1d50 0x6018 Hv Hp) as (i & Hi & _).
  exists i. split; [exact Hi|].
  assert (Hi' : Some i = Some {| id_usbVendorId := 0x1d50;
                                 id_usbProductId := 0x6018;
                                 usbId := js "1d50:6018" |})
    by (rewrite <- Hi; reflexivity).
  by injection Hi' as ->.
Defined.

(** ** Encoding and decoding *)

Section Codec.
Import Utf8.

Lemma to_N_to_byte (n : N) : n < 256 -> Byte.to_N (to_byte n) = n.
Proof.
  intros Hn. unfold to_byte. rewrite N.mod_small by exact Hn.
  pose proof (Byte.to_of_N_option_map n) as H.
  destruct (N.leb_spec n 255) as [_|Hgt]; [|lia].
  destruct (Byte.of_N n) as [b|]; [|discriminate H].
  simpl in *. by injection H.
Qed.

Lemma lor_shiftl (a b k : N) :
  b < 2 ^ k -> N.lor (N.shiftl a k) b = a * 2 ^ k + b.
Proof.
  intros Hb.
  assert (Hland : N.land (N.shiftl a k) b = 0).
  { apply N.bits_inj. intros n. rewrite N.land_spec, N.bits_0.
    destruct (N.lt_ge_cases n k) as [Hlt | Hge].
    - by rewrite N.shiftl_spec_low.
    - destruct (N.eq_dec b 0) as [-> | Hnz].
      + by rewrite N.bits_0, andb_false_r.
      + rewrite (N.bits_above_log2 b n), andb_false_r; [done|].
        apply N.lt_le_trans with k; [|exact Hge].
        apply N.log2_lt_pow2; lia. }
  rewrite <- N.lxor_lor by exact Hland.
  rewrite <- N.add_nocarry_lxor by exact Hland.
  by rewrite N.shiftl_mul_pow2.
Qed.

Lemma land_low (c b k : N) :
  b < 2 ^ k -> N.land (c * 2 ^ k + b) (N.ones k) = b.
Proof.
  intros Hb. rewrite N.land_ones.
  symmetry. apply (N.mod_unique _ _ c); [exact Hb | lia].
Qed.


(** The bytes of one code point, as numbers. *)
Lemma encode_code_point_bytes (cp : N) :
  cp < 0x110000 ->
  map Byte.to_N (encode_code_point cp)
  = if cp <=? 0x7F then [cp]
    else if cp <=? 0x7FF then [192 + cp / 64; 128 + cp mod 64]
    else if cp <=? 0xFFFF then
      [224 + cp / 4096; 128 + (cp / 64) mod 64; 128 + cp mod 64]
    else [240 + cp / 262144; 128 + (cp / 4096) mod 64;
          128 + (cp / 64) mod 64; 128 + cp mod 64].
Proof.
  intros Hcp. unfold encode_code_point.
  assert (Hm : ∀ a, a mod 64 < 2 ^ 6) by (intros a; apply N.mod_lt; lia).
  assert (H80 : ∀ y, y < 2 ^ 6 -> N.lor 0x80 y = 128 + y).
  { intros y Hy. change 0x80 with (N.shiftl 2 6). by rewrite lor_shiftl. }
  assert (Hland : ∀ a, N.land a 0x3F = a mod 64).
  { intros a. change 0x3F with (N.ones 6). by rewrite N.land_ones. }
  change 6 with (N.log2 64) in Hm.
  rewrite !Hland, !N.shiftr_div_pow2.
  change (2 ^ 6) with 64. change (2 ^ 12) with 4096.
  change (2 ^ 18) with 262144.
  rewrite !H80 by apply Hm.
  destruct (N.leb_spec cp 0x7F) as [H1|H1].
  { cbn [map]. by rewrite to_N_to_byte by lia. }
  destruct (N.leb_spec cp 0x7FF) as [H2|H2].
  { assert (Hq : cp / 64 < 32) by (apply N.Div0.div_lt_upper_bound; lia).
    change 0xC0 with (N.shiftl 3 6).
    rewrite lor_shiftl by (change (2 ^ 6) with 64; lia).
    pose proof (Hm cp) as Hr. change (2 ^ N.log2 64) with 64 in Hr.
    cbn [map]. rewrite !to_N_to_byte by (change (2 ^ 6) with 64; lia).
    change (2 ^ 6) with 64. f_equal; lia. }
  destruct (N.leb_spec cp 0xFFFF) as [H3|H3].
  { assert (Hq : cp / 4096 < 16) by (apply N.Div0.div_lt_upper_bound; lia).
    change 0xE0 with (N.shiftl 7 5).
    rewrite lor_shiftl by (change (2 ^ 5) with 32; lia).
    pose proof (Hm cp) as Hr. pose proof (Hm (cp / 64)) as Hr'.
    change (2 ^ N.log2 64) with 64 in Hr, Hr'.
    cbn [map]. rewrite !to_N_to_byte by (change (2 ^ 5) with 32; lia).
    change (2 ^ 5) with 32. f_equal; lia. }
  assert (Hq : cp / 262144 < 5) by (apply N.Div0.div_lt_upper_bound; lia).
  change 0xF0 with (N.shiftl 15 4).
  rewrite lor_shiftl by (change (2 ^ 4) with 16; lia).
  pose proof (Hm cp) as Hr. pose proof (Hm (cp / 64)) as Hr'.
  pose proof (Hm (cp / 4096)) as Hr''.
  change (2 ^ N.log2 64) with 64 in Hr, Hr', Hr''.
  cbn [map]. rewrite !to_N_to_byte by (change (2 ^ 4) with 16; lia).
  change (2 ^ 4) with 16. f_equal; lia.
Qed.


Ltac ncmp :=
  repeat match goal with
    | |- context [?a <=? ?b] => destruct (N.leb_spec a b); try lia
    | |- context [?a =? ?b] => destruct (N.eqb_spec a b); try lia
    | |- context [?a <? ?b] => destruct (N.ltb_spec a b); try lia
    end.

Lemma handler_ascii (n : N) :
  n <= 0x7F -> handler initial n = (initial, [n]).
Proof.
  intros Hn. unfold handler, lead, between, initial.
  cbn [bytes_needed]. change (0 =? 0) with true. cbn iota. by ncmp.
Qed.

Lemma land_lead (base k x : N) (q : N) :
  x < 2 ^ k -> base = q * 2 ^ k -> N.land (base + x) (N.ones k) = x.
Proof. intros Hx ->. by apply land_low. Qed.

Lemma handler_lead2 (x : N) :
  2 <= x < 32 ->
  handler initial (192 + x) = (Decoder x 0 1 0x80 0xBF, []).
Proof.
  intros Hx. unfold handler, lead, between, initial.
  cbn [bytes_needed]. change (0 =? 0) with true. cbn iota.
  change 0x1F with (N.ones 5).
  rewrite (land_lead 192 5 x 6) by (done || (change (2 ^ 5) with 32; lia)).
  ncmp; cbn [andb]; try done; lia.
Qed.

Lemma handler_lead3 (x : N) :
  x < 16 ->
  handler initial (224 + x)
  = (Decoder x 0 2 (if x =? 0 then 0xA0 else 0x80)
       (if x =? 13 then 0x9F else 0xBF), []).
Proof.
  intros Hx. unfold handler, lead, between, initial.
  cbn [bytes_needed]. change (0 =? 0) with true. cbn iota.
  change 0xF with (N.ones 4).
  rewrite (land_lead 224 4 x 14) by (done || (change (2 ^ 4) with 16; lia)).
  ncmp; cbn [andb]; try done; lia.
Qed.

Lemma handler_lead4 (x : N) :
  x < 5 ->
  handler initial (240 + x)
  = (Decoder x 0 3 (if x =? 0 then 0x90 else 0x80)
       (if x =? 4 then 0x8F else 0xBF), []).
Proof.
  intros Hx. unfold handler, lead, between, initial.
  cbn [bytes_needed]. change (0 =? 0) with true. cbn iota.
  change 0x7 with (N.ones 3).
  rewrite (land_lead 240 3 x 30) by (done || (change (2 ^ 3) with 8; lia)).
  ncmp; cbn [andb]; try done; lia.
Qed.

Lemma handler_continue (d : decoder) (y : N) :
  bytes_needed d ≠ 0 -> y < 64 ->
  lower_boundary d <= 128 + y <= upper_boundary d ->
  handler d (128 + y)
  = if bytes_seen d + 1 =? bytes_needed d
    then (initial, [code_point d * 64 + y])
    else (Decoder (code_point d * 64 + y) (bytes_seen d + 1)
            (bytes_needed d) 0x80 0xBF, []).
Proof.
  intros Hn Hy Hb. unfold handler, between.
  destruct (N.eqb_spec (bytes_needed d) 0) as [E|_]; [done|].
  destruct (N.leb_spec (lower_boundary d) (128 + y)); [|lia].
  destruct (N.leb_spec (128 + y) (upper_boundary d)); [|lia].
  cbn [andb negb].
  change 0x3F with (N.ones 6).
  rewrite (land_lead 128 6 y 2) by (done || (change (2 ^ 6) with 64; lia)).
  rewrite lor_shiftl by (change (2 ^ 6) with 64; lia).
  change (2 ^ 6) with 64. done.
Qed.


(** Decoding the bytes of one code point gives it back and leaves the
    decoder where it started. *)
Lemma run_encode_code_point (cp : N) :
  cp < 0xD800 ∨ 0xDFFF < cp < 0x110000 ->
  run initial (encode_code_point cp) = (initial, [cp]).
Proof.
  intros Hs. assert (Hcp : cp < 0x110000) by lia.
  pose proof (encode_code_point_bytes cp Hcp) as Hmap.
  pose proof (N.div_mod' cp 64) as D1. pose proof (N.mod_lt cp 64) as M1.
  pose proof (N.div_mod' (cp / 64) 64) as D2.
  pose proof (N.mod_lt (cp / 64) 64) as M2.
  pose proof (N.div_mod' (cp / 4096) 64) as D3.
  pose proof (N.mod_lt (cp / 4096) 64) as M3.
  assert (Q2 : cp / 64 / 64 = cp / 4096) by (by rewrite N.Div0.div_div).
  assert (Q3 : cp / 4096 / 64 = cp / 262144) by (by rewrite N.Div0.div_div).
  rewrite Q2 in D2. rewrite Q3 in D3.
  set (q1 := cp / 64) in *. set (r1 := cp mod 64) in *.
  set (q2 := cp / 4096) in *. set (r2 := q1 mod 64) in *.
  set (q3 := cp / 262144) in *. set (r3 := q2 mod 64) in *.
  clearbody q1 r1 q2 r2 q3 r3.
  destruct (N.leb_spec cp 0x7F) as [H1|H1].
  { destruct (encode_code_point cp) as [|b1 [|? ?]]; try discriminate Hmap.
    injection Hmap as E1. rewrite decoder_run_cons, E1, handler_ascii by lia.
    done. }
  destruct (N.leb_spec cp 0x7FF) as [H2|H2].
  { destruct (encode_code_point cp) as [|b1 [|b2 [|? ?]]];
      try discriminate Hmap.
    injection Hmap as E1 E2.
    rewrite decoder_run_cons, E1, handler_lead2 by lia. cbn [fst snd].
    rewrite decoder_run_cons, E2, handler_continue
      by (cbn [bytes_needed lower_boundary upper_boundary]; lia).
    cbn [bytes_seen bytes_needed code_point fst snd run app].
    change (0 + 1 =? 1) with true. cbn iota. cbn [fst snd app]. do 2 f_equal; lia. }
  destruct (N.leb_spec cp 0xFFFF) as [H3|H3].
  { destruct (encode_code_point cp) as [|b1 [|b2 [|b3 [|? ?]]]];
      try discriminate Hmap.
    injection Hmap as E1 E2 E3.
    rewrite decoder_run_cons, E1, handler_lead3 by lia. cbn [fst snd].
    rewrite decoder_run_cons, E2, handler_continue
      by (cbn [bytes_needed lower_boundary upper_boundary]; ncmp; lia).
    cbn [bytes_seen bytes_needed code_point fst snd].
    change (0 + 1 =? 2) with false. cbn iota. cbn [fst snd].
    rewrite decoder_run_cons, E3, handler_continue
      by (cbn [bytes_needed lower_boundary upper_boundary]; lia).
    cbn [bytes_seen bytes_needed code_point fst snd run app].
    change (0 + 1 + 1 =? 2) with true. cbn iota. cbn [fst snd app]. do 2 f_equal; lia. }
  destruct (encode_code_point cp) as [|b1 [|b2 [|b3 [|b4 [|? ?]]]]];
    try discriminate Hmap.
  injection Hmap as E1 E2 E3 E4.
  rewrite decoder_run_cons, E1, handler_lead4 by lia. cbn [fst snd].
  rewrite decoder_run_cons, E2, handler_continue
    by (cbn [bytes_needed lower_boundary upper_boundary]; ncmp; lia).
  cbn [bytes_seen bytes_needed code_point fst snd].
  change (0 + 1 =? 3) with false. cbn iota. cbn [fst snd].
  rewrite decoder_run_cons, E3, handler_continue
    by (cbn [bytes_needed lower_boundary upper_boundary]; lia).
  cbn [bytes_seen bytes_needed code_point fst snd].
  change (0 + 1 + 1 =? 3) with false. cbn iota. cbn [fst snd].
  rewrite decoder_run_cons, E4, handler_continue
    by (cbn [bytes_needed lower_boundary upper_boundary]; lia).
  cbn [bytes_seen bytes_needed code_point fst snd run app].
  change (0 + 1 + 1 + 1 =? 3) with true. cbn iota. cbn [fst snd app]. do 2 f_equal; lia.
Qed.


Lemma run_encode (cps : list N) :
  Forall (fun cp => cp < 0xD800 ∨ 0xDFFF < cp < 0x110000) cps ->
  run initial (flat_map encode_code_point cps) = (initial, cps).
Proof.
  induction 1 as [|cp cps Hcp _ IH]; [done|].
  cbn [flat_map]. rewrite decoder_run_app, (run_encode_code_point cp Hcp).
  cbn [fst snd]. by rewrite IH.
Qed.

Lemma utf16_pair (u v : N) :
  is_lead_surrogate u = true -> is_trail_surrogate v = true ->
  let cp := 0x10000 + N.shiftl (u - 0xD800) 10 + (v - 0xDC00) in
  0xDFFF < cp < 0x110000 ∧ utf16 cp = [u; v].
Proof.
  unfold is_lead_surrogate, is_trail_surrogate, between.
  intros [Hu1 Hu2]%andb_true_iff [Hv1 Hv2]%andb_true_iff.
  apply N.leb_le in Hu1, Hu2, Hv1, Hv2. cbv zeta.
  rewrite N.shiftl_mul_pow2. change (2 ^ 10) with 1024.
  split; [lia|]. unfold utf16.
  destruct (N.ltb_spec (0x10000 + (u - 0xD800) * 1024 + (v - 0xDC00)) 0x10000);
    [lia|].
  replace (0x10000 + (u - 0xD800) * 1024 + (v - 0xDC00) - 0x10000)
    with ((u - 0xD800) * 2 ^ 10 + (v - 0xDC00))
    by (change (2 ^ 10) with 1024; lia).
  change 0x3FF with (N.ones 10).
  rewrite land_low by (change (2 ^ 10) with 1024; lia).
  rewrite N.shiftr_div_pow2.
  rewrite <- (N.div_unique ((u - 0xD800) * 2 ^ 10 + (v - 0xDC00)) (2 ^ 10)
                (u - 0xD800) (v - 0xDC00))
    by (change (2 ^ 10) with 1024; lia).
  f_equal; [lia|]. f_equal. lia.
Qed.

(** On a string without lone surrogates the encoder's pairing of
    surrogates loses nothing. *)
Lemma well_formed_scalar_values (n : nat) (s : list N) :
  (length s ≤ n)%nat -> well_formed s = true ->
  Forall (fun cp => cp < 0xD800 ∨ 0xDFFF < cp < 0x110000) (scalar_values s) ∧
  flat_map utf16 (scalar_values s) = s ∧
  (head s ≠ Some byte_order_mark ->
   head (scalar_values s) ≠ Some byte_order_mark).
Proof.
  revert s. induction n as [|n IH]; intros s Hlen Hwf.
  { destruct s; [by split_and! | simpl in Hlen; lia]. }
  destruct s as [|u s]; [by split_and!|].
  cbn [well_formed scalar_values] in *.
  destruct (is_lead_surrogate u) eqn:Hlead.
  - destruct s as [|v s]; [discriminate Hwf|].
    apply andb_true_iff in Hwf as [Htrail Hwf]. rewrite Htrail.
    destruct (utf16_pair u v Hlead Htrail) as [Hcp Hutf].
    destruct (IH s) as (IH1 & IH2 & _); [simpl in Hlen; lia | exact Hwf |].
    split_and!.
    + constructor; [by right | exact IH1].
    + cbn [flat_map]. rewrite Hutf, IH2. done.
    + intros _. cbn [head]. intros [= E]. unfold byte_order_mark in E. lia.
  - apply andb_true_iff in Hwf as [Hu Hwf].
    apply andb_true_iff in Hu as [Hnt Hu16].
    apply negb_true_iff in Hnt. rewrite Hnt.
    apply N.ltb_lt in Hu16.
    destruct (IH s) as (IH1 & IH2 & _); [simpl in Hlen; lia | exact Hwf |].
    assert (Hsc : u < 0xD800 ∨ 0xDFFF < u < 0x110000).
    { unfold is_lead_surrogate, is_trail_surrogate, between in *.
      apply andb_false_iff in Hlead, Hnt.
      rewrite !N.leb_gt in Hlead, Hnt. lia. }
    split_and!.
    + by constructor.
    + cbn [flat_map]. rewrite IH2. unfold utf16.
      by destruct (N.ltb_spec u 0x10000); [|lia].
    + done.
Qed.

(** What [TextEncoder] made of a string without lone surrogates,
    [TextDecoder] reads back as the same string (a leading U+FEFF apart,
    which the decoder drops). *)
Lemma decode_encode (s : list N) :
  well_formed s = true -> head s ≠ Some byte_order_mark ->
  decode (Some (encode s)) = s.
Proof.
  intros Hwf Hbom.
  destruct (well_formed_scalar_values (length s) s (le_n _) Hwf)
    as (Hsc & Hutf & Hhead).
  unfold decode, code_points, raw_code_points, encode.
  rewrite (run_encode _ Hsc). cbn [flush initial bytes_needed].
  change (0 =? 0) with true. cbn iota. rewrite app_nil_r.
  rewrite strip_bom_without by (by apply Hhead). exact Hutf.
Qed.

Lemma well_formed_app (n : nat) (s t : list N) :
  (length s ≤ n)%nat ->
  well_formed s = true -> well_formed t = true -> well_formed (s ++ t) = true.
Proof.
  revert s. induction n as [|n IH]; intros s Hlen Hs Ht.
  { destruct s; [done | simpl in Hlen; lia]. }
  destruct s as [|u s]; [done|].
  cbn [app well_formed] in *. destruct (is_lead_surrogate u).
  - destruct s as [|v s]; [discriminate Hs|]. cbn [app].
    apply andb_true_iff in Hs as [Hv Hs]. rewrite Hv. cbn [andb].
    apply IH; [simpl in Hlen; lia | done..].
  - apply andb_true_iff in Hs as [Hu Hs]. rewrite Hu. cbn [andb].
    apply IH; [simpl in Hlen; lia | done..].
Qed.

End Codec.

(** X22: the bytes [write] hands to the platform for a message without
    lone surrogates (and without a leading U+FEFF) are read back by the
    loop's decoder, when they come in one chunk, as the message followed
    by CR LF. *)
Theorem written_bytes_decode_back (w : World) (p : nat) (message : list N) :
  portRef w = Some p -> writable (port_at w p) = Some unlocked ->
  well_formed message = true ->
  head message ≠ Some Utf8.byte_order_mark ->
  ∃ data,
    calls (exec (write message Resolved) w) = calls w ++ [call_write p data] ∧
    Utf8.decode (Some data) = message ++ [13; 10].
Proof.
  intros Hp Hw Hwf Hbom. exists (Utf8.encode (message ++ [13; 10])).
  split; [by apply write_with_handle|].
  apply decode_encode.
  - by apply (well_formed_app (length message)).
  - destruct message; [discriminate | exact Hbom].
Qed.

Lemma written_bytes_decode_back_witness :
  portRef opened = Some 0%nat ∧
  writable (port_at opened 0) = Some unlocked ∧
  well_formed [0x68; 0xE9; 0x20AC; 0xD83D; 0xDE00] = true ∧
  ∃ data,
    calls (exec (write [0x68; 0xE9; 0x20AC; 0xD83D; 0xDE00] Resolved) opened)
    = calls opened ++ [call_write 0 data] ∧
    Utf8.decode (Some data) = [0x68; 0xE9; 0x20AC; 0xD83D; 0xDE00; 13; 10].
Proof.
  assert (Hbom : head [0x68; 0xE9; 0x20AC; 0xD83D; 0xDE00]
                 ≠ Some Utf8.byte_order_mark) by discriminate.
  split; [reflexivity|]. split; [reflexivity|]. split; [reflexivity|].
  exact (written_bytes_decode_back opened 0
           [0x68; 0xE9; 0x20AC; 0xD83D; 0xDE00] eq_refl eq_refl eq_refl Hbom).
Defined.

(** X23: a stream of bytes below 0x80 is decoded to the same text
    however it is cut into chunks: one code unit per byte. *)
Theorem ascii_chunks_decode (chunks : list (list byte)) :
  Forall (Forall (fun b => Byte.to_N b < 0x80)) chunks ->
  accumulated chunks = map Byte.to_N (concat chunks) ∧
  accumulated chunks = accumulated [concat chunks].
Proof.
  intros Hc. split; [by apply accumulated_ascii|].
  rewrite (accumulated_ascii _ Hc).
  rewrite (accumulated_ascii [concat chunks]).
  - simpl. by rewrite app_nil_r.
  - constructor; [|constructor]. by apply Forall_concat.
Qed.

Lemma ascii_chunks_decode_witness :
  let chunks := map String.list_byte_of_string ["ok"; " c"; "h"; "> "]%string in
  Forall (Forall (fun b => Byte.to_N b < 0x80)) chunks ∧
  accumulated chunks = js "ok ch> ".
Proof.
  intros chunks.
  assert (Hc : Forall (Forall (fun b => Byte.to_N b < 0x80)) chunks)
    by (repeat constructor).
  split; [exact Hc|].
  exact (proj1 (ascii_chunks_decode chunks Hc)).
Defined.

